(** * Quiz and review sessions of the kanji trainer

    A shallow embedding of [src/components/QuizMode.tsx] and
    [src/components/ReviewMode.tsx] (with the [Word] type of [types.ts] and
    the [onExit] handler the application passes in), and the properties of
    the session engine proved over it.

    Conventions of the embedding:
    - a JavaScript string is the list of its UTF-16 code units;
    - every [useState] cell of a component is a field of its [State] record,
      and a handler is a function on states;
    - [setTimeout(handleNext, d)] appends to the list of pending timers the
      closure it was given, that is, the round number that closure captured
      at the render in which it was created;
    - the outcomes of [Math.random] used by one call of [setupRound] are the
      fields of a [Draws] record; the engine's [sort] under a random
      comparator is an unknown permutation, the [Shuffler] class. *)

From stdpp Require Import base numbers list.

(** ** JavaScript strings *)

Module JS.

Local Open Scope N_scope.

Abbreviation str := (list N).

Definition LBRACKET : N := 91.
Definition RBRACKET : N := 93.

(** LineTerminator of ECMAScript: LF, CR, LS, PS. *)
Definition isLineTerminator (c : N) : bool :=
  (c =? 10) || (c =? 13) || (c =? 8232) || (c =? 8233).

(** WhiteSpace of ECMAScript: TAB, VT, FF, ZWNBSP and the Unicode
    space separators. *)
Definition isWhiteSpace (c : N) : bool :=
  (c =? 9) || (c =? 11) || (c =? 12) || (c =? 32) || (c =? 160)
  || (c =? 5760) || ((8192 <=? c) && (c <=? 8202)) || (c =? 8239)
  || (c =? 8287) || (c =? 12288) || (c =? 65279).

(** What [String.prototype.trim] strips from both ends. *)
Definition isTrimmed (c : N) : bool := isWhiteSpace c || isLineTerminator c.

Fixpoint trimStart (s : str) : str :=
  match s with
  | c :: s' => if isTrimmed c then trimStart s' else s
  | [] => []
  end.

Definition trimEnd (s : str) : str := reverse (trimStart (reverse s)).

Definition trim (s : str) : str := trimEnd (trimStart s).

(** [closing s] is how far a match of [\[.*?\]] that has just read its
    opening bracket extends into [s]: lazily up to and including the first
    closing bracket, provided no line terminator (which [.] refuses) comes
    before it. *)
Fixpoint closing (s : str) : option nat :=
  match s with
  | [] => None
  | c :: s' =>
      if c =? RBRACKET then Some 1%nat
      else if isLineTerminator c then None
      else S <$> closing s'
  end.

(** [s.replace(/\[.*?\]/g, '')].  [skip] is the number of code units of
    the current match still to be consumed; outside a match every code
    unit is copied, and a match is tried at every opening bracket. *)
Fixpoint stripFrom (skip : nat) (s : str) : str :=
  match s with
  | [] => []
  | c :: s' =>
      match skip with
      | S k => stripFrom k s'
      | O =>
          if c =? LBRACKET then
            match closing s' with
            | Some n => stripFrom n s'
            | None => c :: stripFrom 0 s'
            end
          else c :: stripFrom 0 s'
      end
  end.

Definition stripFurigana (s : str) : str := stripFrom 0 s.

(** [s.join('')] *)
Definition join (l : list str) : str := concat l.

(** [!x] for [x : string | null]: null and the empty string are falsy. *)
Definition falsy (x : option str) : bool :=
  match x with
  | None | Some [] => true
  | Some (_ :: _) => false
  end.

(** [arr.includes(x)] *)
Definition includes (x : str) (l : list str) : bool := bool_decide (x ∈ l).

End JS.
Import JS.

(** ** [types.ts] *)

Record Word := {
  id : str;
  kanji : str;
  hiragana : str;
  romaji : str;
  meanings : list str;
  level : N;
  exampleSentence : str;
  exampleMeaning : str;
  imagePrompt : option str;
  imageUrl : option str;
  learnedAt : option str;
}.

Inductive Feedback := NONE | CORRECT | WRONG.

Global Instance Feedback_eq_dec : EqDecision Feedback.
Proof. solve_decision. Defined.

Definition ids (l : list Word) : list str := id <$> l.

(** ** Randomness *)

(** [[...l].sort(() => 0.5 - Math.random())]: the comparator is inconsistent,
    so all that is known of the result is that it rearranges [l].  The
    [nat] stands for the random outcomes the sort consumed. *)
Class Shuffler := {
  shuffle : ∀ {A : Type}, nat → list A → list A;
  shuffle_perm : ∀ (A : Type) (seed : nat) (l : list A), shuffle seed l ≡ₚ l;
}.

(** [Math.floor(Math.random() * n)] takes exactly the values [0 .. n-1],
    and is 0 when [n] is 0; a draw [d] is an arbitrary natural, read
    modulo [n]. *)
Definition floorRandom (d n : nat) : nat :=
  match n with O => O | S _ => d mod n end.

(** [const TOTAL_ROUNDS = 10], the same in both components. *)
Definition TOTAL_ROUNDS : nat := 10.

(** ** [QuizMode.tsx] *)

Module QuizMode.

Inductive QuizType := MATCHING | TYPING | SENTENCE | LISTENING.

Global Instance QuizType_eq_dec : EqDecision QuizType.
Proof. solve_decision. Defined.

Definition types : list QuizType := [MATCHING; TYPING; SENTENCE; LISTENING].

Inductive TargetType := HIRAGANA | MEANING.

(** An entry of [matchingRight]; [rtext] is undefined when the word has
    no meaning at all. *)
Record RightItem := { rid : str; rtext : option str; rtype : TargetType }.

(** A sentence fragment [{id, text}]. *)
Record Block := { bid : nat; btext : str }.

(** The [useState] cells of the component. *)
Record State := {
  currentRound : nat;
  currentType : QuizType;
  currentWord : option Word;
  matchingLeft : list Word;
  matchingRight : list RightItem;
  matchingPairs : list str;
  selectedLeft : option str;
  typingInput : str;
  typingFeedback : Feedback;
  sentenceBlocks : list Block;
  userSentence : list Block;
  sentenceFeedback : Feedback;
  listeningOptions : list Word;
  listeningFeedback : Feedback;
  selectedOption : option str;
}.

(** The state setters returned by [useState]. *)
Definition setCurrentRound (v : nat) (s : State) : State :=
  {| currentRound := v; currentType := currentType s;
    currentWord := currentWord s; matchingLeft := matchingLeft s;
    matchingRight := matchingRight s; matchingPairs := matchingPairs s;
    selectedLeft := selectedLeft s; typingInput := typingInput s;
    typingFeedback := typingFeedback s; sentenceBlocks := sentenceBlocks s;
    userSentence := userSentence s; sentenceFeedback := sentenceFeedback s;
    listeningOptions := listeningOptions s;
    listeningFeedback := listeningFeedback s;
    selectedOption := selectedOption s |}.

Definition setCurrentType (v : QuizType) (s : State) : State :=
  {| currentRound := currentRound s; currentType := v;
    currentWord := currentWord s; matchingLeft := matchingLeft s;
    matchingRight := matchingRight s; matchingPairs := matchingPairs s;
    selectedLeft := selectedLeft s; typingInput := typingInput s;
    typingFeedback := typingFeedback s; sentenceBlocks := sentenceBlocks s;
    userSentence := userSentence s; sentenceFeedback := sentenceFeedback s;
    listeningOptions := listeningOptions s;
    listeningFeedback := listeningFeedback s;
    selectedOption := selectedOption s |}.

Definition setCurrentWord (v : option Word) (s : State) : State :=
  {| currentRound := currentRound s; currentType := currentType s;
    currentWord := v; matchingLeft := matchingLeft s;
    matchingRight := matchingRight s; matchingPairs := matchingPairs s;
    selectedLeft := selectedLeft s; typingInput := typingInput s;
    typingFeedback := typingFeedback s; sentenceBlocks := sentenceBlocks s;
    userSentence := userSentence s; sentenceFeedback := sentenceFeedback s;
    listeningOptions := listeningOptions s;
    listeningFeedback := listeningFeedback s;
    selectedOption := selectedOption s |}.

Definition setMatchingLeft (v : list Word) (s : State) : State :=
  {| currentRound := currentRound s; currentType := currentType s;
    currentWord := currentWord s; matchingLeft := v;
    matchingRight := matchingRight s; matchingPairs := matchingPairs s;
    selectedLeft := selectedLeft s; typingInput := typingInput s;
    typingFeedback := typingFeedback s; sentenceBlocks := sentenceBlocks s;
    userSentence := userSentence s; sentenceFeedback := sentenceFeedback s;
    listeningOptions := listeningOptions s;
    listeningFeedback := listeningFeedback s;
    selectedOption := selectedOption s |}.

Definition setMatchingRight (v : list RightItem) (s : State) : State :=
  {| currentRound := currentRound s; currentType := currentType s;
    currentWord := currentWord s; matchingLeft := matchingLeft s;
    matchingRight := v; matchingPairs := matchingPairs s;
    selectedLeft := selectedLeft s; typingInput := typingInput s;
    typingFeedback := typingFeedback s; sentenceBlocks := sentenceBlocks s;
    userSentence := userSentence s; sentenceFeedback := sentenceFeedback s;
    listeningOptions := listeningOptions s;
    listeningFeedback := listeningFeedback s;
    selectedOption := selectedOption s |}.

Definition setMatchingPairs (v : list str) (s : State) : State :=
  {| currentRound := currentRound s; currentType := currentType s;
    currentWord := currentWord s; matchingLeft := matchingLeft s;
    matchingRight := matchingRight s; matchingPairs := v;
    selectedLeft := selectedLeft s; typingInput := typingInput s;
    typingFeedback := typingFeedback s; sentenceBlocks := sentenceBlocks s;
    userSentence := userSentence s; sentenceFeedback := sentenceFeedback s;
    listeningOptions := listeningOptions s;
    listeningFeedback := listeningFeedback s;
    selectedOption := selectedOption s |}.

Definition setSelectedLeft (v : option str) (s : State) : State :=
  {| currentRound := currentRound s; currentType := currentType s;
    currentWord := currentWord s; matchingLeft := matchingLeft s;
    matchingRight := matchingRight s; matchingPairs := matchingPairs s;
    selectedLeft := v; typingInput := typingInput s;
    typingFeedback := typingFeedback s; sentenceBlocks := sentenceBlocks s;
    userSentence := userSentence s; sentenceFeedback := sentenceFeedback s;
    listeningOptions := listeningOptions s;
    listeningFeedback := listeningFeedback s;
    selectedOption := selectedOption s |}.

Definition setTypingInput (v : str) (s : State) : State :=
  {| currentRound := currentRound s; currentType := currentType s;
    currentWord := currentWord s; matchingLeft := matchingLeft s;
    matchingRight := matchingRight s; matchingPairs := matchingPairs s;
    selectedLeft := selectedLeft s; typingInput := v;
    typingFeedback := typingFeedback s; sentenceBlocks := sentenceBlocks s;
    userSentence := userSentence s; sentenceFeedback := sentenceFeedback s;
    listeningOptions := listeningOptions s;
    listeningFeedback := listeningFeedback s;
    selectedOption := selectedOption s |}.

Definition setTypingFeedback (v : Feedback) (s : State) : State :=
  {| currentRound := currentRound s; currentType := currentType s;
    currentWord := currentWord s; matchingLeft := matchingLeft s;
    matchingRight := matchingRight s; matchingPairs := matchingPairs s;
    selectedLeft := selectedLeft s; typingInput := typingInput s;
    typingFeedback := v; sentenceBlocks := sentenceBlocks s;
    userSentence := userSentence s; sentenceFeedback := sentenceFeedback s;
    listeningOptions := listeningOptions s;
    listeningFeedback := listeningFeedback s;
    selectedOption := selectedOption s |}.

Definition setSentenceBlocks (v : list Block) (s : State) : State :=
  {| currentRound := currentRound s; currentType := currentType s;
    currentWord := currentWord s; matchingLeft := matchingLeft s;
    matchingRight := matchingRight s; matchingPairs := matchingPairs s;
    selectedLeft := selectedLeft s; typingInput := typingInput s;
    typingFeedback := typingFeedback s; sentenceBlocks := v;
    userSentence := userSentence s; sentenceFeedback := sentenceFeedback s;
    listeningOptions := listeningOptions s;
    listeningFeedback := listeningFeedback s;
    selectedOption := selectedOption s |}.

Definition setUserSentence (v : list Block) (s : State) : State :=
  {| currentRound := currentRound s; currentType := currentType s;
    currentWord := currentWord s; matchingLeft := matchingLeft s;
    matchingRight := matchingRight s; matchingPairs := matchingPairs s;
    selectedLeft := selectedLeft s; typingInput := typingInput s;
    typingFeedback := typingFeedback s; sentenceBlocks := sentenceBlocks s;
    userSentence := v; sentenceFeedback := sentenceFeedback s;
    listeningOptions := listeningOptions s;
    listeningFeedback := listeningFeedback s;
    selectedOption := selectedOption s |}.

Definition setSentenceFeedback (v : Feedback) (s : State) : State :=
  {| currentRound := currentRound s; currentType := currentType s;
    currentWord := currentWord s; matchingLeft := matchingLeft s;
    matchingRight := matchingRight s; matchingPairs := matchingPairs s;
    selectedLeft := selectedLeft s; typingInput := typingInput s;
    typingFeedback := typingFeedback s; sentenceBlocks := sentenceBlocks s;
    userSentence := userSentence s; sentenceFeedback := v;
    listeningOptions := listeningOptions s;
    listeningFeedback := listeningFeedback s;
    selectedOption := selectedOption s |}.

Definition setListeningOptions (v : list Word) (s : State) : State :=
  {| currentRound := currentRound s; currentType := currentType s;
    currentWord := currentWord s; matchingLeft := matchingLeft s;
    matchingRight := matchingRight s; matchingPairs := matchingPairs s;
    selectedLeft := selectedLeft s; typingInput := typingInput s;
    typingFeedback := typingFeedback s; sentenceBlocks := sentenceBlocks s;
    userSentence := userSentence s; sentenceFeedback := sentenceFeedback s;
    listeningOptions := v; listeningFeedback := listeningFeedback s;
    selectedOption := selectedOption s |}.

Definition setListeningFeedback (v : Feedback) (s : State) : State :=
  {| currentRound := currentRound s; currentType := currentType s;
    currentWord := currentWord s; matchingLeft := matchingLeft s;
    matchingRight := matchingRight s; matchingPairs := matchingPairs s;
    selectedLeft := selectedLeft s; typingInput := typingInput s;
    typingFeedback := typingFeedback s; sentenceBlocks := sentenceBlocks s;
    userSentence := userSentence s; sentenceFeedback := sentenceFeedback s;
    listeningOptions := listeningOptions s; listeningFeedback := v;
    selectedOption := selectedOption s |}.

Definition setSelectedOption (v : option str) (s : State) : State :=
  {| currentRound := currentRound s; currentType := currentType s;
    currentWord := currentWord s; matchingLeft := matchingLeft s;
    matchingRight := matchingRight s; matchingPairs := matchingPairs s;
    selectedLeft := selectedLeft s; typingInput := typingInput s;
    typingFeedback := typingFeedback s; sentenceBlocks := sentenceBlocks s;
    userSentence := userSentence s; sentenceFeedback := sentenceFeedback s;
    listeningOptions := listeningOptions s;
    listeningFeedback := listeningFeedback s; selectedOption := v |}.

(** The outcomes of [Math.random] consumed by one call of [setupRound]. *)
Record Draws := {
  dType : nat;          (* for [types[Math.floor(Math.random() * 4)]] *)
  dWord : nat;          (* for [words[Math.floor(Math.random() * n)]] *)
  dCoin : nat → bool;   (* [Math.random() > 0.5] at the k-th mapped word *)
  dLen : nat → nat;     (* [Math.floor(Math.random() * 3)] at the k-th chunk *)
  dSeed1 : nat;         (* the first shuffle of the branch *)
  dSeed2 : nat;         (* the second shuffle of the branch *)
}.

(** The component together with what outlives a render: the timers the
    browser holds and the calls of [onExit] the application received.
    A pending timer is the [handleNext] closure handed to [setTimeout],
    that is, the [currentRound] of the render that created it; the delays
    (1000 or 1500 ms) only decide the order in which timers fire.  The
    500 ms timers that remove the shake animation touch a CSS class only
    and are left out.  [onExit] is [handleGoHome] of the application, which
    leaves the quiz screen: the component is unmounted and React drops
    later updates of its state. *)
Record World := {
  ui : State;
  mounted : bool;
  timers : list nat;
  exits : nat;
}.

Definition update (f : State → State) (w : World) : World :=
  if mounted w
  then {| ui := f (ui w); mounted := true; timers := timers w; exits := exits w |}
  else w.

(** [setTimeout(handleNext, _)] from a render whose [currentRound] is [seen]. *)
Definition schedule (seen : nat) (w : World) : World :=
  {| ui := ui w; mounted := mounted w; timers := timers w ++ [seen];
     exits := exits w |}.

Definition onExit (w : World) : World :=
  {| ui := ui w; mounted := false; timers := timers w; exits := S (exits w) |}.

Definition dropTimer (k : nat) (w : World) : World :=
  {| ui := ui w; mounted := mounted w; timers := delete k (timers w);
     exits := exits w |}.

(** The sentence splitter: the [while (remaining.length > 0)] loop.
    [drawnLength] is the [len] of the k-th iteration.  Every iteration
    removes at least two code units or all that is left, so
    [length remaining] iterations are always enough. *)
Definition drawnLength (ρ : Draws) (k : nat) : nat :=
  floorRandom (dLen ρ k) 3 + 2.

Fixpoint chunkLoop (ρ : Draws) (fuel k : nat) (remaining : str) : list str :=
  match fuel, remaining with
  | S fuel', _ :: _ =>
      let len := drawnLength ρ k in
      take len remaining :: chunkLoop ρ fuel' (S k) (drop len remaining)
  | _, _ => []
  end.

Definition chunksOf (ρ : Draws) (cleanSentence : str) : list str :=
  chunkLoop ρ (length cleanSentence) 0 cleanSentence.

Definition blocksOf (chunks : list str) : list Block :=
  imap (λ i t, {| bid := i; btext := t |}) chunks.

Section Component.
Context {Sh : Shuffler}.
(** The props: [words]; [onExit] is modelled by [exits] and [mounted]. *)
Variable words : list Word.

Definition initial : State :=
  {| currentRound := 1; currentType := MATCHING; currentWord := None;
     matchingLeft := []; matchingRight := []; matchingPairs := [];
     selectedLeft := None; typingInput := []; typingFeedback := NONE;
     sentenceBlocks := []; userSentence := []; sentenceFeedback := NONE;
     listeningOptions := []; listeningFeedback := NONE;
     selectedOption := None |}.

Definition setupMatching (ρ : Draws) (s : State) : State :=
  let pool := take 3 (shuffle (dSeed1 ρ) words) in
  let right :=
    imap (λ k w, {| rid := id w;
                    rtext := if dCoin ρ k then Some (hiragana w)
                             else meanings w !! 0;
                    rtype := HIRAGANA |}) pool in
  setSelectedLeft None
    (setMatchingPairs []
       (setMatchingRight (shuffle (dSeed2 ρ) right)
          (setMatchingLeft pool s))).

Definition setupSentence (ρ : Draws) (randomWord : Word) (s : State) : State :=
  let cleanSentence := stripFurigana (exampleSentence randomWord) in
  let chunks := chunksOf ρ cleanSentence in
  setSentenceBlocks (shuffle (dSeed1 ρ) (blocksOf chunks)) s.

Definition setupListening (ρ : Draws) (randomWord : Word) (s : State) : State :=
  let wrongOptions :=
    take 3 (shuffle (dSeed1 ρ)
              (filter (λ w, id w ≠ id randomWord) words)) in
  let options := shuffle (dSeed2 ρ) (randomWord :: wrongOptions) in
  setListeningOptions options s.

Definition setupRound (ρ : Draws) (s : State) : State :=
  match words with
  | [] => s
  | w0 :: _ =>
      let nextType := nth (floorRandom (dType ρ) (length types)) types MATCHING in
      let randomWord := nth (floorRandom (dWord ρ) (length words)) words w0 in
      let s := setCurrentType nextType s in
      let s := setCurrentWord (Some randomWord) s in
      let s := setTypingInput [] s in
      let s := setTypingFeedback NONE s in
      let s := setSentenceFeedback NONE s in
      let s := setListeningFeedback NONE s in
      let s := setSelectedOption None s in
      let s := setUserSentence [] s in
      match nextType with
      | MATCHING => setupMatching ρ s
      | SENTENCE => setupSentence ρ randomWord s
      | LISTENING => setupListening ρ randomWord s
      | TYPING => s
      end
  end.

(** [handleNext] as closed over a render whose [currentRound] was [seen];
    [setCurrentRound(prev => prev + 1)] reads the live cell. *)
Definition handleNext (seen : nat) (ρ : Draws) (w : World) : World :=
  if decide (seen < TOTAL_ROUNDS) then
    update (λ s, setupRound ρ (setCurrentRound (currentRound s + 1) s)) w
  else onExit w.

Definition handleMatchLeft (i : str) (w : World) : World :=
  if negb (includes i (matchingPairs (ui w)))
  then update (setSelectedLeft (Some i)) w
  else w.

Definition handleMatchRight (i : str) (w : World) : World :=
  let s := ui w in
  if falsy (selectedLeft s) || includes i (matchingPairs s) then w
  else if decide (selectedLeft s = Some i) then
    let newPairs := matchingPairs s ++ [i] in
    let w := update (λ s, setSelectedLeft None (setMatchingPairs newPairs s)) w in
    if decide (length newPairs = length (matchingLeft s))
    then schedule (currentRound s) w
    else w
  else update (setSelectedLeft None) w.

Definition checkTyping (w : World) : World :=
  let s := ui w in
  match currentWord s with
  | None => w
  | Some cw =>
      if decide (trim (typingInput s) = hiragana cw)
      then schedule (currentRound s) (update (setTypingFeedback CORRECT) w)
      else update (setTypingFeedback WRONG) w
  end.

Definition toggleSentenceBlock (block : Block) (isUsed : bool) (w : World) : World :=
  if isUsed then
    update (λ s, setSentenceBlocks (sentenceBlocks s ++ [block])
                   (setUserSentence
                      (filter (λ b, bid b ≠ bid block) (userSentence s)) s)) w
  else
    update (λ s, setUserSentence (userSentence s ++ [block])
                   (setSentenceBlocks
                      (filter (λ b, bid b ≠ bid block) (sentenceBlocks s)) s)) w.

Definition checkSentence (w : World) : World :=
  let s := ui w in
  match currentWord s with
  | None => w
  | Some cw =>
      let attempt := join (btext <$> userSentence s) in
      let target := stripFurigana (exampleSentence cw) in
      if decide (attempt = target)
      then schedule (currentRound s) (update (setSentenceFeedback CORRECT) w)
      else update (setSentenceFeedback WRONG) w
  end.

Definition checkListening (selectedId : str) (w : World) : World :=
  let s := ui w in
  match currentWord s with
  | None => w
  | Some cw =>
      let w := update (setSelectedOption (Some selectedId)) w in
      if decide (selectedId = id cw)
      then schedule (currentRound s) (update (setListeningFeedback CORRECT) w)
      else update (setListeningFeedback WRONG) w
  end.

(** *** What is on screen *)

(** The early [return] of the component: with fewer than four words only
    the notice and its back button are rendered. *)
Definition insufficient : bool := bool_decide (length words < 4).

Inductive Event :=
| ClickExit                        (* the exit or back button: [onExit] *)
| ClickLeft (k : nat)              (* k-th button of [matchingLeft] *)
| ClickRight (k : nat)             (* k-th button of [matchingRight] *)
| Input (text : str)               (* [onChange] of the typing input *)
| SubmitTyping                     (* the confirm button or the Enter key *)
| ClickPoolBlock (k : nat)         (* k-th button of [sentenceBlocks] *)
| ClickAnswerBlock (k : nat)       (* k-th button of [userSentence] *)
| SubmitSentence
| ClickOption (k : nat)            (* k-th button of [listeningOptions] *)
| Fire (k : nat) (ρ : Draws).      (* the k-th pending timer runs *)

(** A click reaches its handler only if the button is rendered and not
    [disabled]. *)
Definition click (e : Event) (w : World) : World :=
  let s := ui w in
  match e with
  | ClickExit => onExit w
  | ClickLeft k =>
      match currentType s, matchingLeft s !! k with
      | MATCHING, Some x =>
          if includes (id x) (matchingPairs s) then w
          else handleMatchLeft (id x) w
      | _, _ => w
      end
  | ClickRight k =>
      match currentType s, matchingRight s !! k with
      | MATCHING, Some item =>
          if includes (rid item) (matchingPairs s) then w
          else handleMatchRight (rid item) w
      | _, _ => w
      end
  | Input text =>
      match currentType s, currentWord s with
      | TYPING, Some _ => update (setTypingInput text) w
      | _, _ => w
      end
  | SubmitTyping =>
      match currentType s, currentWord s with
      | TYPING, Some _ => checkTyping w
      | _, _ => w
      end
  | ClickPoolBlock k =>
      match currentType s, currentWord s, sentenceBlocks s !! k with
      | SENTENCE, Some _, Some block => toggleSentenceBlock block false w
      | _, _, _ => w
      end
  | ClickAnswerBlock k =>
      match currentType s, currentWord s, userSentence s !! k with
      | SENTENCE, Some _, Some block => toggleSentenceBlock block true w
      | _, _, _ => w
      end
  | SubmitSentence =>
      match currentType s, currentWord s with
      | SENTENCE, Some _ => checkSentence w
      | _, _ => w
      end
  | ClickOption k =>
      match currentType s, currentWord s, listeningOptions s !! k with
      | LISTENING, Some _, Some opt =>
          if decide (listeningFeedback s = CORRECT) then w
          else checkListening (id opt) w
      | _, _, _ => w
      end
  | Fire _ _ => w
  end.

Definition step (w : World) (e : Event) : World :=
  match e with
  | Fire k ρ =>
      match timers w !! k with
      | Some seen => handleNext seen ρ (dropTimer k w)
      | None => w
      end
  | ClickExit => if mounted w then onExit w else w
  | _ => if mounted w && negb insufficient then click e w else w
  end.

Definition run (w : World) (es : list Event) : World := foldl step w es.

(** Mounting: the first render, then [useEffect(() => setupRound(), [])]. *)
Definition mount (ρ : Draws) : World :=
  {| ui := setupRound ρ initial; mounted := true; timers := []; exits := 0 |}.

(** The line the typing view shows under the input after a wrong answer. *)
Definition revealedReading (s : State) : option str :=
  match currentType s, currentWord s with
  | TYPING, Some cw =>
      if decide (typingFeedback s = WRONG) then Some (hiragana cw) else None
  | _, _ => None
  end.

End Component.

End QuizMode.

(** ** [ReviewMode.tsx] *)

Module ReviewMode.

Inductive TargetType := HIRAGANA | MEANING.

Record ReviewItem := { word : Word; targetType : TargetType }.

Record State := {
  currentRound : nat;
  selectedLeft : option str;
  matchedPairs : list str;
  shuffledLeft : list Word;
  shuffledRight : list ReviewItem;
}.

Definition setCurrentRound (v : nat) (s : State) : State :=
  {| currentRound := v; selectedLeft := selectedLeft s;
     matchedPairs := matchedPairs s; shuffledLeft := shuffledLeft s;
     shuffledRight := shuffledRight s |}.

Definition setSelectedLeft (v : option str) (s : State) : State :=
  {| currentRound := currentRound s; selectedLeft := v;
     matchedPairs := matchedPairs s; shuffledLeft := shuffledLeft s;
     shuffledRight := shuffledRight s |}.

Definition setMatchedPairs (v : list str) (s : State) : State :=
  {| currentRound := currentRound s; selectedLeft := selectedLeft s;
     matchedPairs := v; shuffledLeft := shuffledLeft s;
     shuffledRight := shuffledRight s |}.

Definition setShuffledLeft (v : list Word) (s : State) : State :=
  {| currentRound := currentRound s; selectedLeft := selectedLeft s;
     matchedPairs := matchedPairs s; shuffledLeft := v;
     shuffledRight := shuffledRight s |}.

Definition setShuffledRight (v : list ReviewItem) (s : State) : State :=
  {| currentRound := currentRound s; selectedLeft := selectedLeft s;
     matchedPairs := matchedPairs s; shuffledLeft := shuffledLeft s;
     shuffledRight := v |}.

(** The outcomes of [Math.random] consumed by one call of [setupRound]. *)
Record Draws := {
  dPick : nat → nat;    (* [Math.floor(Math.random() * pool.length)], i-th turn *)
  dCoin : nat → bool;   (* [Math.random() > 0.5] at the k-th mapped word *)
  dSeed1 : nat;
  dSeed2 : nat;
}.

(** The review screen has no [handleNext] timer; [onExit] is again
    [handleGoHome], which unmounts it. *)
Record World := {
  ui : State;
  mounted : bool;
  exits : nat;
}.

Definition update (f : State → State) (w : World) : World :=
  if mounted w then {| ui := f (ui w); mounted := true; exits := exits w |} else w.

Definition onExit (w : World) : World :=
  {| ui := ui w; mounted := false; exits := S (exits w) |}.

Section Component.
Context {Sh : Shuffler}.
Variable words : list Word.

Definition initial : State :=
  {| currentRound := 1; selectedLeft := None; matchedPairs := [];
     shuffledLeft := []; shuffledRight := [] |}.

(** The [for (let i = 0; i < 5; i++)] loop with [todo] turns left:
    refill the pool when it is empty, draw an index, push the word
    there and splice it out.  [w0] stands for the [undefined] that
    [pool[randomIndex]] would be on an empty pool, which the guard of
    [setupRound] excludes. *)
Fixpoint sampleLoop (ρ : Draws) (w0 : Word) (todo i : nat)
    (pool roundWords : list Word) : list Word :=
  match todo with
  | O => roundWords
  | S todo' =>
      let pool := if decide (length pool = 0) then pool ++ words else pool in
      let randomIndex := floorRandom (dPick ρ i) (length pool) in
      sampleLoop ρ w0 todo' (S i) (delete randomIndex pool)
        (roundWords ++ [nth randomIndex pool w0])
  end.

Definition roundWordsOf (ρ : Draws) (w0 : Word) : list Word :=
  sampleLoop ρ w0 5 0 words [].

Definition setupRound (ρ : Draws) (s : State) : State :=
  match words with
  | [] => s
  | w0 :: _ =>
      let roundWords := roundWordsOf ρ w0 in
      let newLeft := shuffle (dSeed1 ρ) roundWords in
      let newRight :=
        shuffle (dSeed2 ρ)
          (imap (λ k w, {| word := w;
                           targetType := if dCoin ρ k then HIRAGANA else MEANING |})
             roundWords) in
      setSelectedLeft None
        (setMatchedPairs []
           (setShuffledRight newRight (setShuffledLeft newLeft s)))
  end.

Definition handleLeftClick (i : str) (w : World) : World :=
  if includes i (matchedPairs (ui w)) then w
  else update (setSelectedLeft (Some i)) w.

Definition handleRightClick (i : str) (w : World) : World :=
  let s := ui w in
  if falsy (selectedLeft s) || includes i (matchedPairs s) then w
  else if decide (selectedLeft s = Some i) then
    update (λ s, setSelectedLeft None (setMatchedPairs (matchedPairs s ++ [i]) s)) w
  else update (setSelectedLeft None) w.

Definition handleNextRound (ρ : Draws) (w : World) : World :=
  if decide (currentRound (ui w) < TOTAL_ROUNDS) then
    update (λ s, setupRound ρ (setCurrentRound (currentRound s + 1) s)) w
  else onExit w.

Definition isRoundComplete (s : State) : bool :=
  bool_decide (0 < length (shuffledLeft s))
  && bool_decide (length (matchedPairs s) = length (shuffledLeft s)).

(** The early [return]: without any word only the notice is rendered. *)
Definition insufficient : bool := bool_decide (length words < 1).

Inductive Event :=
| ClickExit                   (* the exit or back button: [onExit] *)
| ClickLeft (k : nat)         (* k-th button of the left column *)
| ClickRight (k : nat)        (* k-th button of the right column *)
| ClickNext (ρ : Draws)       (* the arrow shown on a completed round *)
| ClickFinish.                (* the button of the final card: [onExit] *)

Definition click (e : Event) (w : World) : World :=
  let s := ui w in
  match e with
  | ClickExit => onExit w
  | ClickLeft k =>
      match shuffledLeft s !! k with
      | Some x =>
          if includes (id x) (matchedPairs s) then w
          else handleLeftClick (id x) w
      | None => w
      end
  | ClickRight k =>
      match shuffledRight s !! k with
      | Some item =>
          if includes (id (word item)) (matchedPairs s) then w
          else handleRightClick (id (word item)) w
      | None => w
      end
  | ClickNext ρ =>
      if isRoundComplete s && bool_decide (currentRound s < TOTAL_ROUNDS)
      then handleNextRound ρ w else w
  | ClickFinish =>
      if isRoundComplete s && negb (bool_decide (currentRound s < TOTAL_ROUNDS))
      then onExit w else w
  end.

Definition step (w : World) (e : Event) : World :=
  match e with
  | ClickExit => if mounted w then onExit w else w
  | _ => if mounted w && negb insufficient then click e w else w
  end.

Definition run (w : World) (es : list Event) : World := foldl step w es.

(** Mounting: the first render, then [useEffect(() => setupRound(), [words])]. *)
Definition mount (ρ : Draws) : World :=
  {| ui := setupRound ρ initial; mounted := true; exits := 0 |}.

End Component.

End ReviewMode.

(** ** [App.tsx] (the application that hosts the quiz) *)

Module App.

Inductive AppMode := HOME | LEARN | QUIZ | REVIEW_FLASHCARD | VOCABULARY.

Global Instance AppMode_eq_dec : EqDecision AppMode.
Proof. solve_decision. Defined.

(** [{ ...w, learnedAt: t }] *)
Definition withLearnedAt (t : str) (w : Word) : Word :=
  {| id := id w; kanji := kanji w; hiragana := hiragana w; romaji := romaji w;
     meanings := meanings w; level := level w;
     exampleSentence := exampleSentence w; exampleMeaning := exampleMeaning w;
     imagePrompt := imagePrompt w; imageUrl := imageUrl w;
     learnedAt := Some t |}.

(** The [useState] cells that carry data, [sessionActiveRef.current], and
    whether the [getAllWordsFromDB()] of the mount effect is still
    unsettled.  [loadingMessage] and [deferredPrompt] only feed the display
    and the install prompt and are left out. *)
Record State := {
  mode : AppMode;
  level : N;
  learnedWords : list Word;
  currentSessionWords : list Word;
  currentIndex : nat;
  loading : bool;
  sessionActive : bool;
  dbPending : bool;
}.

Definition setMode (v : AppMode) (s : State) : State :=
  {| mode := v; level := level s; learnedWords := learnedWords s;
     currentSessionWords := currentSessionWords s;
     currentIndex := currentIndex s; loading := loading s;
     sessionActive := sessionActive s; dbPending := dbPending s |}.

Definition setLevel (v : N) (s : State) : State :=
  {| mode := mode s; level := v; learnedWords := learnedWords s;
     currentSessionWords := currentSessionWords s;
     currentIndex := currentIndex s; loading := loading s;
     sessionActive := sessionActive s; dbPending := dbPending s |}.

Definition setLearnedWords (v : list Word) (s : State) : State :=
  {| mode := mode s; level := level s; learnedWords := v;
     currentSessionWords := currentSessionWords s;
     currentIndex := currentIndex s; loading := loading s;
     sessionActive := sessionActive s; dbPending := dbPending s |}.

Definition setCurrentSessionWords (v : list Word) (s : State) : State :=
  {| mode := mode s; level := level s; learnedWords := learnedWords s;
     currentSessionWords := v;
     currentIndex := currentIndex s; loading := loading s;
     sessionActive := sessionActive s; dbPending := dbPending s |}.

Definition setCurrentIndex (v : nat) (s : State) : State :=
  {| mode := mode s; level := level s; learnedWords := learnedWords s;
     currentSessionWords := currentSessionWords s;
     currentIndex := v; loading := loading s;
     sessionActive := sessionActive s; dbPending := dbPending s |}.

Definition setLoading (v : bool) (s : State) : State :=
  {| mode := mode s; level := level s; learnedWords := learnedWords s;
     currentSessionWords := currentSessionWords s;
     currentIndex := currentIndex s; loading := v;
     sessionActive := sessionActive s; dbPending := dbPending s |}.

Definition setSessionActive (v : bool) (s : State) : State :=
  {| mode := mode s; level := level s; learnedWords := learnedWords s;
     currentSessionWords := currentSessionWords s;
     currentIndex := currentIndex s; loading := loading s;
     sessionActive := v; dbPending := dbPending s |}.

Definition setDbPending (v : bool) (s : State) : State :=
  {| mode := mode s; level := level s; learnedWords := learnedWords s;
     currentSessionWords := currentSessionWords s;
     currentIndex := currentIndex s; loading := loading s;
     sessionActive := sessionActive s; dbPending := v |}.

(** The first render, with the request of the mount effect sent. *)
Definition initial : State :=
  {| mode := HOME; level := 5; learnedWords := []; currentSessionWords := [];
     currentIndex := 0; loading := false; sessionActive := false;
     dbPending := true |}.

(** [learnedWords.some(lw => lw.kanji === nw.kanji)] *)
Definition known (learned : list Word) (nw : Word) : Prop :=
  Exists (λ lw, kanji lw = kanji nw) learned.

Section Component.
Context {Sh : Shuffler}.

(** [getAllWordsFromDB().then(words => setLearnedWords(words)).catch(...)]:
    [loaded] is what the database answered, or nothing if it failed. *)
Definition dbSettled (loaded : option (list Word)) (s : State) : State :=
  let s1 := match loaded with
            | Some words => setLearnedWords words s
            | None => s
            end in
  setDbPending false s1.

(** [startReviewFlashcards] *)
Definition startReviewFlashcards (seed : nat) (s : State) : State :=
  if decide (length (learnedWords s) = 0) then s
  else
    let shuffled := shuffle seed (learnedWords s) in
    setMode REVIEW_FLASHCARD
      (setCurrentIndex 0 (setCurrentSessionWords shuffled s)).

(** [handleFinishBatch]; [now k] is the [new Date().toISOString()] of the
    k-th word that is added. *)
Definition handleFinishBatch (now : nat → str) (s : State) : State :=
  let s1 := setSessionActive false s in
  let s2 :=
    if decide (mode s = LEARN) then
      let newUniqueWords :=
        imap (λ k w, withLearnedAt (now k) w)
          (filter (λ nw, ¬ known (learnedWords s) nw) (currentSessionWords s)) in
      setLearnedWords (learnedWords s ++ newUniqueWords) s1
    else s1 in
  setCurrentIndex 0 (setCurrentSessionWords [] (setMode HOME s2)).

(** [handleGoHome]: the logo, the close button of the word list, and the
    [onExit] of the quiz. *)
Definition handleGoHome (s : State) : State :=
  setMode HOME (setSessionActive false s).

(** The part of [startLearning] before its first [await]. *)
Definition startLearning (s : State) : State :=
  setSessionActive true (setLoading true s).

(** The part of [startLearning] after its [await]s: [result] is the list
    of new words with their images, or nothing if an exception reached the
    [catch]; the [finally] block ends the loading. *)
Definition startLearningDone (result : option (list Word)) (s : State) : State :=
  let s1 :=
    match result with
    | Some newWords =>
        if sessionActive s
        then setMode LEARN (setCurrentIndex 0 (setCurrentSessionWords newWords s))
        else s
    | None => s
    end in
  setLoading false s1.

(** The props the application hands to [Flashcard]. *)
Definition isLast (s : State) : bool :=
  bool_decide (currentIndex s = length (currentSessionWords s) - 1).

Definition isFirst (s : State) : bool := bool_decide (currentIndex s = 0).

(** [Flashcard.handleNext] and [Flashcard.handlePrev]; [onPrev] is passed
    only when [currentIndex > 0]. *)
Definition cardNext (now : nat → str) (s : State) : State :=
  if isLast s then handleFinishBatch now s
  else setCurrentIndex (currentIndex s + 1) s.

Definition cardPrev (s : State) : State :=
  if bool_decide (0 < currentIndex s) then setCurrentIndex (currentIndex s - 1) s
  else s.

(** The flashcard is rendered in the two card modes on a non-empty deck. *)
Definition showsCard (s : State) : bool :=
  (bool_decide (mode s = LEARN) || bool_decide (mode s = REVIEW_FLASHCARD))
  && bool_decide (0 < length (currentSessionWords s)).

Inductive Event :=
| DbSettled (loaded : option (list Word))  (* the database answers *)
| GoHome                          (* logo, word list close, quiz exit *)
| ClickVocabulary                 (* the word list button of the bar *)
| ClickLevel (lvl : N)            (* one of the level buttons N5 .. N1 *)
| ClickStartLearning
| LearningDone (result : option (list Word))
| ClickQuiz
| ClickReviewCards (seed : nat)
| CardNext (now : nat → str)
| CardPrev.

(** A click reaches its handler only if its button is rendered and not
    [disabled]; [LearningDone] needs a [startLearning] in flight, and the
    database answers once. *)
Definition step (s : State) (e : Event) : State :=
  match e with
  | DbSettled loaded => if dbPending s then dbSettled loaded s else s
  | GoHome => handleGoHome s
  | ClickVocabulary => setMode VOCABULARY (setSessionActive false s)
  | ClickLevel lvl =>
      if bool_decide (mode s = HOME) && bool_decide (lvl ∈ [5; 4; 3; 2; 1]%N)
      then setLevel lvl s else s
  | ClickStartLearning =>
      if bool_decide (mode s = HOME) && negb (loading s)
      then startLearning s else s
  | LearningDone result =>
      if loading s then startLearningDone result s else s
  | ClickQuiz =>
      if bool_decide (mode s = HOME) && negb (bool_decide (length (learnedWords s) < 4))
      then setMode QUIZ (setSessionActive false s) else s
  | ClickReviewCards seed =>
      if bool_decide (mode s = HOME) && negb (bool_decide (length (learnedWords s) = 0))
      then startReviewFlashcards seed s else s
  | CardNext now => if showsCard s then cardNext now s else s
  | CardPrev =>
      if showsCard s && negb (isFirst s) then cardPrev s else s
  end.

Definition run (s : State) (es : list Event) : State := foldl step s es.

End Component.

End App.

(** ** [AudioButton.tsx] *)

Module AudioButton.

(** What [handlePlay] hands to the speech synthesis, if the browser has
    one: the text without its bracketed readings. *)
Definition handlePlay (hasSpeech : bool) (text : str) : option str :=
  if hasSpeech then Some (stripFurigana text) else None.

End AudioButton.

(** ** [services/geminiService.ts] and [services/vocabService.ts] *)

Module Services.

(** How one call of [generateImages] ends, as [generateImageForWord]
    tells the cases apart: a response, with its [imageBytes] if it has
    any; an error whose message names a rate limit, with the seconds of
    its "retry in" hint as they are written, if it has one; any other
    error. *)
Inductive Outcome :=
| Response (imageBytes : option str)
| RateLimited (retryIn : option str)
| OtherError.

(** A delay: [1000 * Math.pow(2, currentTry)] milliseconds, or
    [Math.ceil(parseFloat(seconds) * 1000) + 200] for the seconds of a
    hint. *)
Inductive Wait :=
| Backoff (ms : N)
| Hinted (seconds : str).

(** What a run of [generateImageForWord] did: its result, the number of
    requests it sent and the delays it waited, in order. *)
Record Run := { result : option str; requests : nat; waits : list Wait }.

(** "data:image/jpeg;base64," *)
Definition dataPrefix : str :=
  [100; 97; 116; 97; 58; 105; 109; 97; 103; 101; 47; 106; 112; 101; 103; 59;
   98; 97; 115; 101; 54; 52; 44]%N.

(** The delay before the next try.  The power of two is the exact value
    of the floating-point product as long as that is finite, that is for
    [currentTry] up to 1000 and more. *)
Definition waitTime (retryIn : option str) (currentTry : nat) : Wait :=
  match retryIn with
  | Some seconds => Hinted seconds
  | None => Backoff (1000 * 2 ^ N.of_nat currentTry)
  end.

(** The [while (currentTry < retries)] loop with [todo] tries left;
    [respond k] is the outcome of request number [k] and [compress] stands
    for [compressImage]. *)
Fixpoint retryLoop (respond : nat → Outcome) (compress : str → str)
    (todo currentTry : nat) (sent : nat) (waited : list Wait) : Run :=
  match todo with
  | O => {| result := None; requests := sent; waits := waited |}
  | S todo' =>
      match respond sent with
      | Response imageBytes =>
          if falsy imageBytes
          then {| result := None; requests := S sent; waits := waited |}
          else {| result := Some (compress (dataPrefix ++ default [] imageBytes));
                  requests := S sent; waits := waited |}
      | RateLimited retryIn =>
          retryLoop respond compress todo' (S currentTry) (S sent)
            (waited ++ [waitTime retryIn currentTry])
      | OtherError => {| result := None; requests := S sent; waits := waited |}
      end
  end.

(** [generateImageForWord(prompt, retries)]; without an API key nothing is
    sent. *)
Definition generateImageForWord (apiKey : bool) (respond : nat → Outcome)
    (compress : str → str) (retries : nat) : Run :=
  if apiKey then retryLoop respond compress retries 0 0 []
  else {| result := None; requests := 0; waits := [] |}.

(** A row of the vocabulary file, as [parseCSV] builds it. *)
Record RawWord := {
  original : str;
  furigana : str;
  english : str;
  rawLevel : Z;
}.

(** [getWordsFromCSV]: [fetched] is what [parseCSV] made of the file, or
    nothing if the request failed; then the rows of the level that are not
    excluded, shuffled, and the first [count] of them. *)
Definition getWordsFromCSV {Sh : Shuffler} (fetched : option (list RawWord))
    (targetLevel : Z) (excludeKanji : list str) (count : nat) (seed : nat)
    : list RawWord :=
  match fetched with
  | None => []
  | Some allWords =>
      let candidates :=
        filter (λ w, rawLevel w = targetLevel ∧ original w ∉ excludeKanji) allWords in
      take count (shuffle seed candidates)
  end.

End Services.

(** ** Sample data *)

Module Sample.

Local Open Scope N_scope.

(** A shuffler that rotates the list by its seed. *)
Lemma rotate_perm {A} (n : nat) (l : list A) : rotate n l ≡ₚ l.
Proof.
  unfold rotate. rewrite Permutation_app_comm. by rewrite take_drop.
Qed.

Definition rotating : Shuffler :=
  {| shuffle := λ A n l, rotate n l; shuffle_perm := λ A n l, rotate_perm n l |}.

(** "わたし", "ワタシ" and "私[わたし]は学生[がくせい]です" *)
Definition watashi : str := [12431; 12383; 12375].
Definition watashi_katakana : str := [12527; 12479; 12471].
Definition sentence : str :=
  [31169; 91; 12431; 12383; 12375; 93; 12399; 23398; 29983; 91; 12364;
   12367; 12379; 12356; 93; 12391; 12377].
Definition sentence_clean : str := [31169; 12399; 23398; 29983; 12391; 12377].

Definition mkWord (n : N) (reading example : str) : Word :=
  {| id := [119; 48 + n]; kanji := [19968 + n]; hiragana := reading;
     romaji := [97 + n]; meanings := [[44032 + n]]; level := 5;
     exampleSentence := example; exampleMeaning := [44032];
     imagePrompt := None; imageUrl := None; learnedAt := None |}.

Definition w1 : Word := mkWord 1 watashi sentence.
Definition w2 : Word := mkWord 2 [12364; 12367; 12379; 12356] sentence.
Definition w3 : Word := mkWord 3 [12356; 12396] [29356; 91; 12356; 12396; 93].
Definition w4 : Word := mkWord 4 [12397; 12371] [29483; 91; 12397; 12371; 93].
Definition w5 : Word := mkWord 5 [12420; 12414] [23665; 91; 12420; 12414; 93].
Definition w6 : Word := mkWord 6 [12363; 12431] [24029; 91; 12363; 12431; 93].

Definition pool3 : list Word := [w1; w2; w3].
Definition pool4 : list Word := [w1; w2; w3; w4].
Definition pool6 : list Word := [w1; w2; w3; w4; w5; w6].

(** Draws that select quiz type number [t] and word number [k], cut
    chunks of [2 + (n mod 3)] code units, and seed the shuffles. *)
Definition quizDraws (t k n s1 s2 : nat) : QuizMode.Draws :=
  {| QuizMode.dType := t; QuizMode.dWord := k;
     QuizMode.dCoin := Nat.even; QuizMode.dLen := λ i, (n + i)%nat;
     QuizMode.dSeed1 := s1; QuizMode.dSeed2 := s2 |}.

Definition reviewDraws (n s1 s2 : nat) : ReviewMode.Draws :=
  {| ReviewMode.dPick := λ i, (n + 2 * i)%nat; ReviewMode.dCoin := Nat.odd;
     ReviewMode.dSeed1 := s1; ReviewMode.dSeed2 := s2 |}.

End Sample.
Import Sample.

(** The concrete runs below use the rotating shuffler. *)
#[local] Existing Instance rotating | 100.

(** ** Vocabulary of the statements *)

(** A bracketed annotation inside a text: an opening bracket, a closing
    bracket after it, and no line break between the two. *)
Definition annotated (s : str) : Prop :=
  ∃ pre r post, s = pre ++ LBRACKET :: r ++ RBRACKET :: post ∧
                Forall (λ c, isLineTerminator c = false) r.

(** An example sentence as the word generator is asked to write it: plain
    text interleaved with bracketed readings. *)
Inductive Segment := Plain (t : str) | Reading (r : str).

Definition render (g : Segment) : str :=
  match g with Plain t => t | Reading r => LBRACKET :: r ++ [RBRACKET] end.

Definition plainText (g : Segment) : str :=
  match g with Plain t => t | Reading _ => [] end.

Definition wellFormed (g : Segment) : Prop :=
  match g with
  | Plain t => LBRACKET ∉ t
  | Reading r => Forall (λ c, c ≠ RBRACKET ∧ isLineTerminator c = false) r
  end.

(** A selection in a matching round: the k-th card of the left or of the
    right column. *)
Inductive Selection := PickLeft (k : nat) | PickRight (k : nat).

Section QuizVocabulary.
Import QuizMode.
Context {Sh : Shuffler} (words : list Word).

(** The variant and the word a call of [setupRound] draws, and the cells it
    resets before it prepares the variant. *)
Definition drawnType (ρ : Draws) : QuizType :=
  nth (floorRandom (dType ρ) (length types)) types MATCHING.

Definition drawnWord (ρ : Draws) (x : Word) : Word :=
  nth (floorRandom (dWord ρ) (length words)) words x.

Definition resetRound (nextType : QuizType) (randomWord : Word) (s : State) : State :=
  setUserSentence [] (setSelectedOption None (setListeningFeedback NONE
    (setSentenceFeedback NONE (setTypingFeedback NONE (setTypingInput []
      (setCurrentWord (Some randomWord) (setCurrentType nextType s))))))).

(** One attempt: type [text], then submit. *)
Definition attempt (text : str) : list Event := [Input text; SubmitTyping].

(** What stays put while the learner keeps trying. *)
Definition sameTypingRound (cw : Word) (w0 w : World) : Prop :=
  mounted w = true ∧ currentType (ui w) = TYPING ∧ currentWord (ui w) = Some cw ∧
  currentRound (ui w) = currentRound (ui w0) ∧ timers w = timers w0.

(** Where the fragment created as number [i] sits in the shuffled pool. *)
Definition poolIndex (i : nat) (pool : list Block) : nat :=
  default 0 (fst <$> list_find (λ b, bid b = i) pool).

(** The learner picks fragment number [i] from the pool on screen. *)
Definition pickBlock (w : World) (i : nat) : World :=
  step words w (ClickPoolBlock (poolIndex i (sentenceBlocks (ui w)))).

(** The learner picks fragments number 0, 1, ..., n-1, in this order. *)
Definition assembleInOrder (w : World) (n : nat) : World :=
  foldl pickBlock w (seq 0 n).

(** The state after the fragments created first, [i] of them, were picked
    in order from the pool [pool0] of a fresh round. *)
Definition assembled (cw : Word) (chunks : list str) (pool0 : list Block)
    (w0 w : World) (i : nat) : Prop :=
  mounted w = true ∧ currentType (ui w) = SENTENCE ∧
  currentWord (ui w) = Some cw ∧
  currentRound (ui w) = currentRound (ui w0) ∧ timers w = timers w0 ∧
  userSentence (ui w) = take i (blocksOf chunks) ∧
  sentenceBlocks (ui w) = filter (λ b, i ≤ bid b) pool0.

(** The three wrong options of a round whose target is [target]. *)
Definition wrongOptionsOf (ρ : Draws) (target : Word) : list Word :=
  take 3 (shuffle (dSeed1 ρ) (filter (λ x, id x ≠ id target) words)).

Definition selectionEvent (x : Selection) : Event :=
  match x with PickLeft k => ClickLeft k | PickRight k => ClickRight k end.

(** The matched identifiers are distinct identifiers of the left column,
    and so is the active selection. *)
Definition matchingInv (s : State) : Prop :=
  NoDup (matchingPairs s) ∧
  (∀ i, i ∈ matchingPairs s → i ∈ ids (matchingLeft s)) ∧
  (∀ i, selectedLeft s = Some i → i ∈ ids (matchingLeft s)).

(** What a quiz on too small a pool looks like at any time: the state
    the mount effect left, no timer, and [onExit] called at most once,
    by the back button. *)
Definition idle (w0 w : World) : Prop :=
  ui w = ui w0 ∧ timers w = [] ∧
  ((mounted w = true ∧ exits w = 0) ∨ (mounted w = false ∧ exits w = 1)).

End QuizVocabulary.

Section ReviewVocabulary.
Import ReviewMode.
Context (words : list Word).

(** The pool an iteration draws from: refilled when it ran empty. *)
Definition refilled (pool : list Word) : list Word :=
  if decide (length pool = 0) then pool ++ words else pool.

Definition reviewEvent (x : Selection) : Event :=
  match x with PickLeft k => ClickLeft k | PickRight k => ClickRight k end.

(** What every state of a review session satisfies: the matched
    identifiers are distinct identifiers of the left column, and so is the
    active selection; the round number is between 1 and the total; the
    left column is empty or holds five words of the vocabulary. *)
Definition reviewInv (s : State) : Prop :=
  NoDup (matchedPairs s) ∧
  (∀ i, i ∈ matchedPairs s → i ∈ ids (shuffledLeft s)) ∧
  (∀ i, selectedLeft s = Some i → i ∈ ids (shuffledLeft s)) ∧
  1 ≤ currentRound s ≤ TOTAL_ROUNDS ∧
  (shuffledLeft s = [] ∨ (length (shuffledLeft s) = 5 ∧ shuffledLeft s ⊆ words)).

End ReviewVocabulary.

(** Sample sessions of the quiz. *)

(** The draws of a round of the Typing variant on the first word. *)
Definition typingDraws : QuizMode.Draws := quizDraws 1 0 0 0 0.

(** A round answered right at the first attempt, and its timer running. *)
Definition playRound : list QuizMode.Event :=
  [QuizMode.Input watashi; QuizMode.SubmitTyping; QuizMode.Fire 0 typingDraws].

(** The right answer confirmed twice before the first timer runs. *)
Definition confirmTwice : list QuizMode.Event :=
  [QuizMode.Input watashi; QuizMode.SubmitTyping; QuizMode.SubmitTyping].

Fixpoint rounds (n : nat) : list QuizMode.Event :=
  match n with O => [] | S n' => playRound ++ rounds n' end.

(** ** Vocabulary of the further properties *)

(** A move in a Sentence round: the k-th fragment of the pool goes to the
    end of the answer, or the k-th fragment of the answer goes back to the
    end of the pool. *)
Inductive Move := TakeFromPool (k : nat) | ReturnToPool (k : nat).

Definition moveEvent (m : Move) : QuizMode.Event :=
  match m with
  | TakeFromPool k => QuizMode.ClickPoolBlock k
  | ReturnToPool k => QuizMode.ClickAnswerBlock k
  end.

(** All fragments on screen, pool first. *)
Definition fragments (s : QuizMode.State) : list QuizMode.Block :=
  QuizMode.sentenceBlocks s ++ QuizMode.userSentence s.

(** Every word on screen in the quiz comes from the vocabulary. *)
Definition fromPool (words : list Word) (s : QuizMode.State) : Prop :=
  (∀ cw, QuizMode.currentWord s = Some cw → cw ∈ words) ∧
  QuizMode.matchingLeft s ⊆ words ∧
  QuizMode.listeningOptions s ⊆ words ∧
  QuizMode.rid <$> QuizMode.matchingRight s ⊆ ids words.

(** Whether the matching round of the quiz has every card matched. *)
Definition allMatched (s : QuizMode.State) : Prop :=
  length (QuizMode.matchingPairs s) = length (QuizMode.matchingLeft s).

(** A way through a review round. *)

(** The position of the first right card that carries the identifier. *)
Definition rightIndex (i : str) (right : list ReviewMode.ReviewItem) : nat :=
  default 0 (fst <$> list_find (λ item, id (ReviewMode.word item) = i) right).

(** Matching the k-th left card unless it is matched: select it, then
    the right card of its word. *)
Definition pairUp (s : ReviewMode.State) (k : nat) : list Selection :=
  match ReviewMode.shuffledLeft s !! k with
  | Some x =>
      if includes (id x) (ReviewMode.matchedPairs s) then []
      else [PickLeft k; PickRight (rightIndex (id x) (ReviewMode.shuffledRight s))]
  | None => []
  end.

(** Matching the left cards from top to bottom. *)
Definition solution (s : ReviewMode.State) : list Selection :=
  seq 0 (length (ReviewMode.shuffledLeft s)) ≫= pairUp s.

(** What holds after the first [k] left cards of the state [s0] were
    dealt with. *)
Definition upTo (s0 : ReviewMode.State) (k : nat) (w : ReviewMode.World) : Prop :=
  ReviewMode.mounted w = true ∧
  ReviewMode.currentRound (ReviewMode.ui w) = ReviewMode.currentRound s0 ∧
  ReviewMode.shuffledLeft (ReviewMode.ui w) = ReviewMode.shuffledLeft s0 ∧
  ReviewMode.shuffledRight (ReviewMode.ui w) = ReviewMode.shuffledRight s0 ∧
  NoDup (ReviewMode.matchedPairs (ReviewMode.ui w)) ∧
  (∀ i, i ∈ ReviewMode.matchedPairs (ReviewMode.ui w) ↔
        i ∈ ReviewMode.matchedPairs s0 ∨
        i ∈ take k (ids (ReviewMode.shuffledLeft s0))).

(** The two columns of a review round show the same five words, with
    distinct identifiers. *)
Definition columnsInv (s : ReviewMode.State) : Prop :=
  length (ReviewMode.shuffledLeft s) = 5 ∧
  NoDup (ids (ReviewMode.shuffledLeft s)) ∧
  ReviewMode.word <$> ReviewMode.shuffledRight s ≡ₚ ReviewMode.shuffledLeft s.

(** The application: the flashcard index is 0 or points into the deck. *)
Definition deckInv (s : App.State) : Prop :=
  App.currentIndex s = 0 ∨
  App.currentIndex s < length (App.currentSessionWords s).

(** The delays of [retries] tries that were all turned away without a
    hint, in milliseconds. *)
Definition backoffs (retries : nat) : list N :=
  (λ k, (1000 * 2 ^ N.of_nat k)%N) <$> seq 0 retries.

(** Sample runs of the application and of the image service. *)

(** A word whose identifier is the empty string, and a vocabulary of
    five words with it. *)
Definition nameless : Word :=
  {| id := []; kanji := [19968]%N; hiragana := watashi; romaji := [97]%N;
     meanings := [[44032]%N]; level := 5;
     exampleSentence := sentence; exampleMeaning := [44032]%N;
     imagePrompt := None; imageUrl := None; learnedAt := None |}.

Definition pool5 : list Word := [nameless; w1; w2; w3; w4].

(** The k-th time stamp. *)
Definition stamp (k : nat) : str := [(48 + N.of_nat k)%N].

(** Three words in the database, then a learning deck of three cards of
    which one is known. *)
Definition learningSession : list App.Event :=
  [App.DbSettled (Some pool3); App.ClickStartLearning;
   App.LearningDone (Some [w3; w4; w5])].

(** A service that turns away the first [n] requests and then sends the
    bytes "AA". *)
Definition busyFor (n : nat) (k : nat) : Services.Outcome :=
  if decide (k < n) then Services.RateLimited None
  else Services.Response (Some [65; 65]%N).

(** Rows of a vocabulary file: two of level 5, one of level 4. *)
Definition rows : list Services.RawWord :=
  [ {| Services.original := kanji w1; Services.furigana := hiragana w1;
       Services.english := [73]%N; Services.rawLevel := 5 |};
    {| Services.original := kanji w2; Services.furigana := hiragana w2;
       Services.english := [73]%N; Services.rawLevel := 5 |};
    {| Services.original := kanji w3; Services.furigana := hiragana w3;
       Services.english := [73]%N; Services.rawLevel := 4 |} ].

(** * Properties *)

Lemma floorRandom_lt d n : 0 < n → floorRandom d n < n.
Proof.
  intros Hn. unfold floorRandom. destruct n; [lia|].
  apply Nat.mod_upper_bound. lia.
Qed.

(** ** Strings *)

Section Strings.
Local Open Scope N_scope.

Lemma lineTerminator_not_bracket c :
  isLineTerminator c = true → c ≠ LBRACKET ∧ c ≠ RBRACKET.
Proof.
  unfold isLineTerminator, LBRACKET, RBRACKET.
  rewrite !orb_true_iff, !N.eqb_eq. lia.
Qed.

(** [closing] finds the first closing bracket, on the same line. *)
Lemma closing_Some s n :
  closing s = Some n ↔
  ∃ r post, s = r ++ RBRACKET :: post ∧ n = S (length r) ∧
            Forall (λ c, c ≠ RBRACKET ∧ isLineTerminator c = false) r.
Proof.
  revert n. induction s as [|c s IH]; intros n; simpl.
  - split; [done|]. intros (r & post & E & _). by destruct r.
  - destruct (N.eqb_spec c RBRACKET) as [->|Hc].
    + split.
      * intros [= <-]. by exists [], s.
      * intros (r & post & E & -> & Hr). destruct r as [|c' r]; [done|].
        simplify_eq/=. apply Forall_cons_1 in Hr as [[? _] _]. done.
    + destruct (isLineTerminator c) eqn:Hlt.
      * split; [done|]. intros (r & post & E & -> & Hr).
        destruct r as [|c' r]; simplify_eq/=.
        apply Forall_cons_1 in Hr as [[_ ?] _]. congruence.
      * split.
        -- destruct (closing s) as [m|] eqn:Hm; [|done]. intros [= <-].
           destruct (proj1 (IH m) eq_refl) as (r & post & -> & -> & Hr).
           exists (c :: r), post. split_and!; [done..|]. by constructor.
        -- intros (r & post & E & -> & Hr). destruct r as [|c' r]; simplify_eq/=.
           apply Forall_cons_1 in Hr as [_ Hr].
           assert (closing (r ++ RBRACKET :: post) = Some (S (length r))) as ->; [|done].
           apply IH. by exists r, post.
Qed.

Lemma stripFrom_drop n s : stripFrom n s = stripFurigana (drop n s).
Proof.
  revert n. induction s as [|c s IH]; intros [|n]; try done. simpl. apply IH.
Qed.

(** The two cases of the scan at an opening bracket, and the case of any
    other code unit. *)
Lemma stripFurigana_match r post :
  Forall (λ c, c ≠ RBRACKET ∧ isLineTerminator c = false) r →
  stripFurigana (LBRACKET :: r ++ RBRACKET :: post) = stripFurigana post.
Proof.
  intros Hr. unfold stripFurigana at 1. simpl.
  assert (closing (r ++ RBRACKET :: post) = Some (S (length r))) as ->.
  { apply closing_Some. by exists r, post. }
  rewrite stripFrom_drop. f_equal.
  rewrite drop_app_ge by lia.
  by replace (S (length r) - length r)%nat with 1%nat by lia.
Qed.

Lemma stripFurigana_plain t s :
  LBRACKET ∉ t → stripFurigana (t ++ s) = t ++ stripFurigana s.
Proof.
  induction t as [|c t IH]; intros Ht; [done|].
  apply not_elem_of_cons in Ht as [Hc Ht].
  unfold stripFurigana in *. simpl.
  destruct (N.eqb_spec c LBRACKET); [done|]. by rewrite IH.
Qed.

End Strings.

Section Stripping.
Local Open Scope N_scope.

Lemma closing_is_Some r post :
  Forall (λ c, isLineTerminator c = false) r →
  is_Some (closing (r ++ RBRACKET :: post)).
Proof.
  induction 1 as [|c r Hc _ IH]; simpl.
  - by eexists.
  - destruct (c =? RBRACKET); [by eexists|]. rewrite Hc.
    destruct IH as [n ->]. by eexists.
Qed.

Lemma annotated_cons c s : annotated s → annotated (c :: s).
Proof.
  intros (pre & r & post & -> & Hr). by exists (c :: pre), r, post.
Qed.

(** Text without annotation is left as it is. *)
Lemma stripFurigana_noop s : ¬ annotated s → stripFurigana s = s.
Proof.
  unfold stripFurigana. induction s as [|c s IH]; intros Hs; [done|]. simpl.
  rewrite IH by eauto using annotated_cons.
  destruct (N.eqb_spec c LBRACKET) as [->|]; [|done].
  destruct (closing s) as [n|] eqn:Hn; [|done]. destruct Hs.
  apply closing_Some in Hn as (r & post & -> & _ & Hr).
  exists [], r, post. split; [done|].
  eapply Forall_impl; [exact Hr|]. by intros ? [_ ?].
Qed.

(** A scan that finds no closing bracket finds none in the stripped text. *)
Lemma closing_None_strip s : closing s = None → closing (stripFurigana s) = None.
Proof.
  unfold stripFurigana. induction s as [|c s IH]; [done|]. simpl.
  destruct (N.eqb_spec c RBRACKET) as [->|Hc]; [done|].
  destruct (isLineTerminator c) eqn:Hlt.
  - intros _. destruct (lineTerminator_not_bracket c Hlt) as [Hl _].
    apply N.eqb_neq in Hl, Hc. rewrite Hl. simpl. by rewrite Hc, Hlt.
  - destruct (closing s) as [n|] eqn:Hn; [done|]. intros _.
    apply N.eqb_neq in Hc.
    destruct (c =? LBRACKET); simpl; by rewrite Hc, Hlt, IH.
Qed.

(** No annotation survives the stripping. *)
Lemma stripFurigana_clean s : ¬ annotated (stripFurigana s).
Proof.
  remember (length s) as m eqn:Hm.
  assert (length s ≤ m)%nat as Hle by lia. clear Hm.
  revert s Hle. induction m as [|m IH]; intros s Hle.
  { destruct s; simpl in *; [|lia]. intros ([|??] & ? & ? & ? & _); done. }
  destruct s as [|c s]; [intros ([|??] & ? & ? & ? & _); done|].
  simpl in Hle. intros (pre & r & post & E & Hr).
  revert pre E. unfold stripFurigana. simpl.
  assert (¬ annotated (stripFurigana s)) as Htail by (apply IH; lia).
  assert (∀ pre, c :: stripFrom 0 s = pre ++ LBRACKET :: r ++ RBRACKET :: post →
                 c = LBRACKET ∧ closing (stripFurigana s) ≠ None) as Hhead.
  { intros [|c' pre] [= -> E].
    - split; [done|]. unfold stripFurigana. rewrite E. intros H'.
      destruct (closing_is_Some r post Hr) as [? ?]. congruence.
    - destruct Htail. by exists pre, r, post. }
  destruct (N.eqb_spec c LBRACKET) as [->|Hc].
  - destruct (closing s) as [n|] eqn:Hn.
    + rewrite stripFrom_drop. intros pre E.
      apply (IH (drop n s)); [rewrite length_drop; lia|].
      by exists pre, r, post.
    + intros pre E. apply Hhead in E as [_ E].
      by apply E, closing_None_strip.
  - intros pre E. by apply Hhead in E as [? _].
Qed.

(** On a well-formed example sentence the stripping keeps exactly the
    plain text. *)
Lemma stripFurigana_segments gs :
  Forall wellFormed gs →
  stripFurigana (concat (render <$> gs)) = concat (plainText <$> gs).
Proof.
  induction 1 as [|[t|r] gs Hg _ IH]; [done|..]; cbn -[stripFurigana] in *.
  - by rewrite stripFurigana_plain, IH.
  - rewrite <-app_assoc. cbn -[stripFurigana]. by rewrite stripFurigana_match.
Qed.

(** The sample sentence loses its two readings; a bracket pair with a
    line feed inside is no match of the pattern and is kept. *)
Example strip_sample_sentence : stripFurigana sentence = sentence_clean.
Proof. reflexivity. Qed.

Example strip_keeps_bracket_across_lines :
  stripFurigana [91; 97; 10; 98; 93] = [91; 97; 10; 98; 93].
Proof. reflexivity. Qed.

End Stripping.

(** ** The sentence splitter *)

Section Chunks.
Import QuizMode.
Variable ρ : Draws.

Lemma drawnLength_range k : 2 ≤ drawnLength ρ k ≤ 4.
Proof.
  unfold drawnLength. pose proof (floorRandom_lt (dLen ρ k) 3). lia.
Qed.

Lemma chunkLoop_cons fuel k c s :
  chunkLoop ρ (S fuel) k (c :: s) =
  take (drawnLength ρ k) (c :: s) :: chunkLoop ρ fuel (S k) (drop (drawnLength ρ k) (c :: s)).
Proof. done. Qed.

(** The loop stops because the text is used up, never for lack of fuel. *)
Lemma chunkLoop_fuel f1 f2 k s :
  length s ≤ f1 → length s ≤ f2 → chunkLoop ρ f1 k s = chunkLoop ρ f2 k s.
Proof.
  revert f2 k s. induction f1 as [|f1 IH]; intros f2 k s H1 H2.
  - destruct s; simpl in *; [by destruct f2|lia].
  - destruct s as [|c s]; [by destruct f2|].
    destruct f2 as [|f2]; simpl in H1, H2; [lia|].
    rewrite !chunkLoop_cons. f_equal.
    pose proof (drawnLength_range k).
    apply IH; rewrite length_drop; simpl; lia.
Qed.

Lemma chunkLoop_concat fuel k s :
  length s ≤ fuel → concat (chunkLoop ρ fuel k s) = s.
Proof.
  revert k s. induction fuel as [|fuel IH]; intros k s Hle.
  - destruct s; simpl in *; [done|lia].
  - destruct s as [|c s]; [done|]. rewrite chunkLoop_cons.
    pose proof (drawnLength_range k). simpl in Hle.
    cbn [concat]. rewrite IH, take_drop; [done|].
    rewrite length_drop. simpl. lia.
Qed.

(** Fragment number [i] has the length drawn for it, except that the last
    fragment is cut short by the end of the text. *)
Lemma chunkLoop_lengths fuel k s i c :
  length s ≤ fuel →
  chunkLoop ρ fuel k s !! i = Some c →
  1 ≤ length c ≤ drawnLength ρ (k + i) ∧
  (S i < length (chunkLoop ρ fuel k s) → length c = drawnLength ρ (k + i)).
Proof.
  revert k s i. induction fuel as [|fuel IH]; intros k s i Hle.
  - by destruct s.
  - destruct s as [|x s]; [done|]. rewrite chunkLoop_cons.
    pose proof (drawnLength_range k) as Hk. simpl in Hle.
    destruct i as [|i].
    + intros [= <-]. rewrite Nat.add_0_r, length_take. cbn [length].
      split; [lia|]. intros Hmore.
      destruct (drop (drawnLength ρ k) (x :: s)) as [|y rest] eqn:Hd.
      { destruct fuel; simpl in Hmore; lia. }
      apply (f_equal length) in Hd. rewrite length_drop in Hd.
      simpl in Hd. lia.
    + rewrite lookup_cons. cbn [length].
      replace (k + S i) with (S k + i) by lia. intros Hc.
      edestruct (IH (S k)) as [? Hlast]; [|exact Hc|].
      { rewrite length_drop. simpl. lia. }
      split; [done|]. intros ?. apply Hlast. lia.
Qed.

Lemma chunksOf_concat s : concat (chunksOf ρ s) = s.
Proof. by apply chunkLoop_concat. Qed.

Lemma blocksOf_text chunks : btext <$> blocksOf chunks = chunks.
Proof.
  unfold blocksOf. rewrite fmap_imap.
  rewrite (imap_ext _ (const (λ t, t))) by done.
  by rewrite imap_const, list_fmap_id.
Qed.

Lemma blocksOf_bid chunks : bid <$> blocksOf chunks = seq 0 (length chunks).
Proof.
  unfold blocksOf. rewrite fmap_imap.
  rewrite (imap_ext _ (λ i _, i)) by done.
  rewrite (imap_seq_0 chunks (λ i, i)). apply list_fmap_id.
Qed.

End Chunks.

(** C8 (as amended).  For every example sentence the Sentence engine cuts
    the bracket-stripped sentence into contiguous, non-empty fragments whose
    concatenation is the stripped sentence; every fragment but the last has
    the length drawn for it, between 2 and 4 code units, and the last one is
    between 1 and 4 code units long.  The stripped sentence contains no
    bracketed annotation any more; a text without annotation is left
    unchanged; and on a sentence made of bracket-free text and bracketed
    readings exactly the text outside the brackets remains.  The fragments
    of the round are these, in shuffled order. *)
Theorem sentence_fragments {Sh : Shuffler} (ρ : QuizMode.Draws) (sentence : str) :
  let clean := stripFurigana sentence in
  let chunks := QuizMode.chunksOf ρ clean in
  concat chunks = clean ∧
  (∀ i c, chunks !! i = Some c →
     1 ≤ length c ≤ 4 ∧
     (S i < length chunks → length c = QuizMode.drawnLength ρ i ∧ 2 ≤ length c)) ∧
  ¬ annotated clean ∧
  (¬ annotated sentence → clean = sentence) ∧
  (∀ gs, Forall wellFormed gs → sentence = concat (render <$> gs) →
         clean = concat (plainText <$> gs)) ∧
  (∀ cw s, exampleSentence cw = sentence →
     QuizMode.sentenceBlocks (QuizMode.setupSentence ρ cw s)
       ≡ₚ QuizMode.blocksOf chunks).
Proof.
  intros clean chunks. split_and!.
  - apply chunksOf_concat.
  - intros i c Hc.
    destruct (chunkLoop_lengths ρ _ 0 clean i c (le_n _) Hc) as [Hlen Hfull].
    pose proof (drawnLength_range ρ i). simpl in *.
    split; [lia|]. intros Hi. specialize (Hfull Hi). lia.
  - apply stripFurigana_clean.
  - apply stripFurigana_noop.
  - intros gs Hgs ->. by apply stripFurigana_segments.
  - intros cw s <-. apply shuffle_perm.
Qed.

(** The sample sentence, six code units once stripped, cut with draws of
    2 and 3: the third fragment is the single code unit that is left, so
    not every fragment is 2 to 4 units long. *)
Lemma sentence_fragments_short_tail :
  let chunks := QuizMode.chunksOf (quizDraws 2 0 0 0 0) (stripFurigana sentence) in
  length <$> chunks = [2; 3; 1] ∧
  ¬ Forall (λ c : str, 2 ≤ length c ≤ 4) chunks.
Proof.
  split; [by vm_compute|].
  vm_compute. intros H.
  do 2 apply Forall_cons_1 in H as [_ H].
  apply Forall_cons_1 in H as [[H _] _]. simpl in H. lia.
Qed.

(** The sample sentence cut with draws of 4, 2, ... *)
Lemma sentence_fragments_witness :
  let clean := stripFurigana sentence in
  let chunks := QuizMode.chunksOf (quizDraws 2 0 2 1 1) clean in
  concat chunks = clean ∧
  (∀ i c, chunks !! i = Some c →
     1 ≤ length c ≤ 4 ∧
     (S i < length chunks →
      length c = QuizMode.drawnLength (quizDraws 2 0 2 1 1) i ∧ 2 ≤ length c)) ∧
  ¬ annotated clean ∧
  (¬ annotated sentence → clean = sentence) ∧
  (∀ gs, Forall wellFormed gs → sentence = concat (render <$> gs) →
         clean = concat (plainText <$> gs)) ∧
  (∀ cw s, exampleSentence cw = sentence →
     QuizMode.sentenceBlocks
       (QuizMode.setupSentence (Sh := rotating) (quizDraws 2 0 2 1 1) cw s)
       ≡ₚ QuizMode.blocksOf chunks).
Proof. exact (sentence_fragments (Sh := rotating) (quizDraws 2 0 2 1 1) sentence). Defined.

(** ** Setting up a quiz round *)

Section QuizSetup.
Import QuizMode.
Context {Sh : Shuffler} (words : list Word).

Lemma update_mounted f w :
  mounted w = true →
  update f w = {| ui := f (ui w); mounted := true; timers := timers w; exits := exits w |}.
Proof. unfold update. by intros ->. Qed.

Lemma insufficient_false_length : insufficient words = false → 4 ≤ length words.
Proof. unfold insufficient. intros Hb%bool_decide_eq_false. lia. Qed.

Lemma drawnWord_elem_of ρ x : words ≠ [] → drawnWord words ρ x ∈ words.
Proof.
  intros Hne. apply list_elem_of_In, nth_In, floorRandom_lt.
  destruct words; [done|]. simpl. lia.
Qed.

Lemma drawnWord_indep ρ x y : words ≠ [] → drawnWord words ρ x = drawnWord words ρ y.
Proof.
  intros Hne. apply nth_indep, floorRandom_lt.
  destruct words; [done|]. simpl. lia.
Qed.

Lemma setupRound_empty ρ s : words = [] → setupRound words ρ s = s.
Proof. unfold setupRound. by intros ->. Qed.

Lemma setupRound_nonempty ρ s x :
  words ≠ [] →
  setupRound words ρ s =
  let randomWord := drawnWord words ρ x in
  let s' := resetRound (drawnType ρ) randomWord s in
  match drawnType ρ with
  | MATCHING => setupMatching words ρ s'
  | SENTENCE => setupSentence ρ randomWord s'
  | LISTENING => setupListening words ρ randomWord s'
  | TYPING => s'
  end.
Proof.
  intros Hne. unfold setupRound.
  destruct words as [|y ws] eqn:Hw; [done|]. rewrite <-Hw.
  fold (drawnWord words ρ y) (drawnType ρ).
  by rewrite (drawnWord_indep ρ y x) by (by rewrite Hw).
Qed.

End QuizSetup.

(** ** The Typing engine *)

Section Typing.
Import QuizMode.
Context {Sh : Shuffler} (words : list Word).

Lemma checkTyping_correct w cw :
  mounted w = true → currentWord (ui w) = Some cw →
  trim (typingInput (ui w)) = hiragana cw →
  checkTyping w = schedule (currentRound (ui w)) (update (setTypingFeedback CORRECT) w).
Proof. intros _ Hcw Heq. unfold checkTyping. rewrite Hcw. by case_decide. Qed.

Lemma checkTyping_wrong w cw :
  mounted w = true → currentWord (ui w) = Some cw →
  trim (typingInput (ui w)) ≠ hiragana cw →
  checkTyping w = update (setTypingFeedback WRONG) w.
Proof. intros _ Hcw Hne. unfold checkTyping. rewrite Hcw. by case_decide. Qed.

Lemma wrong_attempts_stay cw w0 w attempts :
  insufficient words = false →
  sameTypingRound cw w0 w →
  Forall (λ a, trim a ≠ hiragana cw) attempts →
  sameTypingRound cw w0 (run words w (attempts ≫= attempt)).
Proof.
  intros Hins Hw Hall. revert w Hw.
  induction Hall as [|a attempts Ha _ IH]; intros w Hw; [done|].
  cbn [mbind list_bind attempt app run foldl]. apply IH. clear IH.
  destruct w as [s m ts n], Hw as (Hm & Hty & Hcw & Hr & Ht).
  destruct s; simpl in *; subst.
  unfold step, click, checkTyping, update; rewrite Hins; simpl.
  by case_decide.
Qed.

(** C3.  For every vocabulary item and every response, validating sets the
    feedback to CORRECT and schedules one automatic advance exactly when the
    trimmed response equals the item's reading; otherwise it sets the
    feedback to WRONG, the view shows the reading, nothing is scheduled and
    nothing else of the round changes; and after any number of wrong
    attempts a right one is still accepted. *)
Theorem typing_validation (w : World) (cw : Word) :
  mounted w = true →
  insufficient words = false →
  currentType (ui w) = TYPING →
  currentWord (ui w) = Some cw →
  let response := typingInput (ui w) in
  let w' := checkTyping w in
  ((typingFeedback (ui w') = CORRECT ∧
    timers w' = timers w ++ [currentRound (ui w)]) ↔
   trim response = hiragana cw) ∧
  (trim response ≠ hiragana cw →
   typingFeedback (ui w') = WRONG ∧
   revealedReading (ui w') = Some (hiragana cw) ∧
   timers w' = timers w ∧
   w' = update (setTypingFeedback WRONG) w) ∧
  (∀ attempts good,
     Forall (λ a, trim a ≠ hiragana cw) attempts →
     trim good = hiragana cw →
     let w'' := run words w ((attempts ≫= attempt) ++ attempt good) in
     typingFeedback (ui w'') = CORRECT ∧
     timers w'' = timers w ++ [currentRound (ui w)]).
Proof.
  intros Hm Hins Hty Hcw response w'. split_and!.
  - subst w'. destruct (decide (trim response = hiragana cw)) as [Heq|Hne].
    + rewrite (checkTyping_correct w cw) by done.
      rewrite update_mounted by done. by split.
    + rewrite (checkTyping_wrong w cw) by done.
      rewrite update_mounted by done. cbn. split; [|done].
      intros [[=] _].
  - intros Hne. subst w'. rewrite (checkTyping_wrong w cw) by done.
    rewrite update_mounted by done. unfold revealedReading. cbn.
    rewrite Hty, Hcw. by case_decide.
  - intros attempts good Hwrong Hgood w''. subst w''.
    unfold run. rewrite foldl_app. fold (run words w (attempts ≫= attempt)).
    destruct (wrong_attempts_stay cw w w attempts Hins) as (Hm' & Hty' & Hcw' & Hr' & Ht');
      [done..|].
    revert Hm' Hty' Hcw' Hr' Ht'.
    generalize (run words w (attempts ≫= attempt)). intros v Hm' Hty' Hcw' <- <-.
    destruct v as [s m ts n]. destruct s; simpl in *; subst.
    unfold step, click, checkTyping, update; rewrite Hins; simpl.
    by case_decide.
Qed.

End Typing.

(** A padded reading typed in the first round of a four-word quiz. *)
Lemma typing_validation_witness :
  let w := QuizMode.step pool4
             (QuizMode.mount pool4 (quizDraws 1 0 0 0 0))
             (QuizMode.Input (32 :: watashi ++ [12288]))%N in
  (QuizMode.typingFeedback (QuizMode.ui (QuizMode.checkTyping w)) = CORRECT ∧
   QuizMode.timers (QuizMode.checkTyping w) = [1]) ∧
  trim (QuizMode.typingInput (QuizMode.ui w)) = hiragana w1.
Proof.
  intros w.
  pose proof (typing_validation pool4 w w1
                eq_refl eq_refl eq_refl eq_refl) as (Hiff & _).
  assert (trim (QuizMode.typingInput (QuizMode.ui w)) = hiragana w1) as Heq
    by reflexivity.
  split; [|exact Heq]. exact (proj2 Hiff Heq).
Defined.

(** The two responses of the specification's example: a padded reading is
    accepted, the same word in katakana is not. *)
Example trim_padded_reading : trim ([32] ++ watashi ++ [32])%N = watashi.
Proof. reflexivity. Qed.

Example katakana_is_not_the_reading : trim watashi_katakana ≠ watashi.
Proof. by vm_compute. Qed.


(** ** The Sentence engine *)

Section Sentence.
Import QuizMode.
Context {Sh : Shuffler} (words : list Word).

Lemma blocksOf_lookup chunks b :
  b ∈ blocksOf chunks → blocksOf chunks !! bid b = Some b.
Proof.
  unfold blocksOf. intros (i & t & -> & Hi)%elem_of_lookup_imap.
  rewrite list_lookup_imap. cbn. by rewrite Hi.
Qed.

Lemma blocksOf_bid_lt chunks b : b ∈ blocksOf chunks → bid b < length chunks.
Proof.
  intros Hb%blocksOf_lookup%lookup_lt_Some.
  unfold blocksOf in Hb. by rewrite length_imap in Hb.
Qed.

Lemma pickBlock_assembled cw chunks pool0 w0 w i :
  insufficient words = false →
  pool0 ≡ₚ blocksOf chunks →
  i < length chunks →
  assembled cw chunks pool0 w0 w i →
  assembled cw chunks pool0 w0 (pickBlock words w i) (S i).
Proof.
  intros Hins Hperm Hi (Hm & Hty & Hcw & Hr & Ht & Hu & Hp).
  assert (is_Some (blocksOf chunks !! i)) as [b Hb].
  { apply lookup_lt_is_Some. unfold blocksOf. by rewrite length_imap. }
  assert (bid b = i) as Hbid.
  { unfold blocksOf in Hb. rewrite list_lookup_imap in Hb.
    destruct (chunks !! i); by simplify_eq/=. }
  assert (∀ b', b' ∈ pool0 → bid b' = i → b' = b) as Huniq.
  { intros b' Hb' Hi'. rewrite Hperm in Hb'. apply blocksOf_lookup in Hb'.
    rewrite Hi' in Hb'. congruence. }
  assert (b ∈ sentenceBlocks (ui w)) as Hin.
  { rewrite Hp. apply list_elem_of_filter. split; [lia|].
    rewrite Hperm. by eapply list_elem_of_lookup_2. }
  destruct (list_find_elem_of (λ b, bid b = i) _ b Hin Hbid) as [[k b'] Hfind].
  pose proof Hfind as (Hk & Hb'i & _)%list_find_Some.
  assert (b' = b) as ->.
  { apply Huniq; [|done]. apply list_elem_of_lookup_2 in Hk.
    rewrite Hp in Hk. by apply list_elem_of_filter in Hk as [_ ?]. }
  unfold pickBlock, poolIndex. rewrite Hfind. cbn [fmap option_fmap option_map default fst].
  destruct w as [s m ts n]. destruct s. simpl in *. subst.
  unfold step, click, toggleSentenceBlock, update. rewrite Hins. simpl.
  rewrite Hk. unfold assembled. simpl. split_and!; try done.
  - by rewrite (take_S_r _ _ b).
  - rewrite list_filter_filter. apply list_filter_iff. intros x. lia.
Qed.

Lemma assembleInOrder_assembled cw chunks pool0 w0 n :
  insufficient words = false →
  pool0 ≡ₚ blocksOf chunks →
  n ≤ length chunks →
  assembled cw chunks pool0 w0 w0 0 →
  assembled cw chunks pool0 w0 (assembleInOrder words w0 n) n.
Proof.
  intros Hins Hperm Hn H0. unfold assembleInOrder.
  induction n as [|n IH]; [done|].
  rewrite seq_S, foldl_app. cbn [foldl].
  apply pickBlock_assembled; [done..|lia|]. apply IH. lia.
Qed.

Lemma filter_all {A} (P : A → Prop) `{∀ x, Decision (P x)} (l : list A) :
  (∀ x, x ∈ l → P x) → filter P l = l.
Proof.
  induction l as [|x l IH]; intros Hl; [done|].
  rewrite filter_cons_True by (apply Hl; left).
  f_equal. apply IH. intros y Hy. apply Hl. by right.
Qed.

Lemma filter_none {A} (P : A → Prop) `{∀ x, Decision (P x)} (l : list A) :
  (∀ x, x ∈ l → ¬ P x) → filter P l = [].
Proof.
  induction l as [|x l IH]; intros Hl; [done|].
  rewrite filter_cons_False by (apply Hl; left).
  apply IH. intros y Hy. apply Hl. by right.
Qed.

(** C4.  In a Sentence round the fragments, taken in the order of their
    creation, concatenate to the bracket-stripped example sentence whatever
    lengths were drawn; picking all of them in that order empties the pool
    and validation then answers CORRECT and schedules the advance.  In any
    round, validation answers CORRECT exactly when the concatenation of
    the answer equals the stripped sentence, and WRONG (scheduling nothing)
    when it does not. *)
Theorem sentence_validation (ρ : Draws) (s : State) (ts : list nat) (n : nat) :
  insufficient words = false →
  floorRandom (dType ρ) 4 = 2 →
  let w0 := {| ui := setupRound words ρ s; mounted := true; timers := ts;
               exits := n |} in
  (∃ cw, currentType (ui w0) = SENTENCE ∧ currentWord (ui w0) = Some cw ∧
     cw ∈ words ∧
     let target := stripFurigana (exampleSentence cw) in
     let chunks := chunksOf ρ target in
     let w1 := assembleInOrder words w0 (length chunks) in
     let w2 := step words w1 SubmitSentence in
     sentenceBlocks (ui w0) ≡ₚ blocksOf chunks ∧
     join chunks = target ∧
     userSentence (ui w1) = blocksOf chunks ∧
     sentenceBlocks (ui w1) = [] ∧
     sentenceFeedback (ui w2) = CORRECT ∧
     timers w2 = ts ++ [currentRound (ui w0)]) ∧
  (∀ w cw, mounted w = true → currentWord (ui w) = Some cw →
     let attempt := join (btext <$> userSentence (ui w)) in
     let target := stripFurigana (exampleSentence cw) in
     let w' := checkSentence w in
     (attempt = target →
      sentenceFeedback (ui w') = CORRECT ∧
      timers w' = timers w ++ [currentRound (ui w)]) ∧
     (attempt ≠ target →
      sentenceFeedback (ui w') = WRONG ∧ timers w' = timers w)).
Proof.
  intros Hins Hty w0. split.
  - pose proof (insufficient_false_length words Hins) as Hlen.
    assert (words ≠ []) as Hne by (intros E; rewrite E in Hlen; simpl in Hlen; lia).
    assert (∃ x, x ∈ words) as [x _].
    { destruct words as [|x ?]; [done|]. exists x. left. }
    set (cw := drawnWord words ρ x).
    exists cw.
    assert (drawnType ρ = SENTENCE) as Hdrawn.
    { unfold drawnType. change (length types) with 4. by rewrite Hty. }
    assert (ui w0 = setupSentence ρ cw (resetRound SENTENCE cw s)) as Hui.
    { subst w0. cbn [ui]. rewrite (setupRound_nonempty words ρ s x Hne).
      cbn zeta. by rewrite Hdrawn. }
    assert (cw ∈ words) as Hcw by by apply drawnWord_elem_of.
    do 2 (split; [by rewrite Hui|]). split; [done|].
    intros target chunks w1 w2.
    assert (sentenceBlocks (ui w0) ≡ₚ blocksOf chunks) as Hperm.
    { rewrite Hui. apply shuffle_perm. }
    assert (assembled cw chunks (sentenceBlocks (ui w0)) w0 w0 0) as H0.
    { unfold assembled. rewrite Hui. split_and!; try done.
      cbn. symmetry. apply filter_all. intros; lia. }
    pose proof (assembleInOrder_assembled cw chunks _ w0 (length chunks)
                  Hins Hperm (le_n _) H0) as (Hm1 & Hty1 & Hcw1 & Hr1 & Ht1 & Hu1 & Hp1).
    fold w1 in Hm1, Hty1, Hcw1, Hr1, Ht1, Hu1, Hp1.
    assert (userSentence (ui w1) = blocksOf chunks) as Hu.
    { rewrite Hu1. apply take_ge. unfold blocksOf. by rewrite length_imap. }
    assert (sentenceBlocks (ui w1) = []) as Hp.
    { rewrite Hp1. apply filter_none. intros b Hb. rewrite Hperm in Hb.
      apply blocksOf_bid_lt in Hb. lia. }
    assert (join chunks = target) as Hjoin by apply chunksOf_concat.
    split_and!; try done.
    + subst w2. clear Hp1 Hu1 H0 Hui.
      destruct w1 as [s1 m1 ts1 n1]. destruct s1. simpl in *. subst.
      unfold step, click, checkSentence, update. rewrite Hins. simpl.
      rewrite blocksOf_text. fold target chunks. rewrite Hjoin.
      by case_decide.
    + subst w2. clear Hp1 Hu1 H0 Hui.
      destruct w1 as [s1 m1 ts1 n1]. destruct s1. simpl in *. subst.
      unfold step, click, checkSentence, update. rewrite Hins. simpl.
      rewrite blocksOf_text. fold target chunks. rewrite Hjoin.
      by case_decide.
  - intros w cw Hm Hcw attempt0 target w'. subst w'.
    unfold checkSentence. rewrite Hcw. fold attempt0 target.
    rewrite !update_mounted by done.
    split; intros ?; by case_decide.
Qed.

End Sentence.

(** A Sentence round on the sample sentence, assembled in order. *)
Lemma sentence_validation_witness :
  let ρ := quizDraws 2 0 2 1 1 in
  let w0 := QuizMode.mount pool4 ρ in
  (QuizMode.insufficient pool4 = false ∧ floorRandom (QuizMode.dType ρ) 4 = 2) ∧
  ∃ cw,
    QuizMode.currentWord (QuizMode.ui w0) = Some cw ∧
    let chunks := QuizMode.chunksOf ρ (stripFurigana (exampleSentence cw)) in
    QuizMode.sentenceFeedback
      (QuizMode.ui (QuizMode.step pool4 (assembleInOrder pool4 w0 (length chunks))
                      QuizMode.SubmitSentence)) = CORRECT.
Proof.
  intros ρ w0. split; [by split|].
  destruct (sentence_validation pool4 ρ QuizMode.initial [] 0 eq_refl eq_refl)
    as [(cw & _ & Hcw & _ & H) _].
  exists cw. split; [exact Hcw|]. exact (proj1 (proj2 (proj2 (proj2 (proj2 H))))).
Defined.

(** ** Lists without repeated identifiers *)

Section Distinct.

Lemma submseteq_NoDup {A} (l k : list A) : l ⊆+ k → NoDup k → NoDup l.
Proof.
  intros [k' Hk]%submseteq_Permutation. rewrite Hk.
  by intros [? _]%NoDup_app.
Qed.

Lemma ids_submseteq (l k : list Word) : l ⊆+ k → ids l ⊆+ ids k.
Proof. unfold ids. by intros ->. Qed.

(** The words of [l] other than [t]: all but one, when identifiers are
    distinct and [t] is among them. *)
Lemma length_others (l : list Word) (t : Word) :
  NoDup (ids l) → t ∈ l →
  length (filter (λ x, id x ≠ id t) l) = length l - 1.
Proof.
  induction l as [|x l IH]; intros Hnd Ht; [by apply elem_of_nil in Ht|].
  cbn [ids fmap list_fmap] in Hnd. apply NoDup_cons in Hnd as [Hx Hnd].
  destruct (decide (id x = id t)) as [Heq|Hne].
  - rewrite filter_cons_False by (intros ?; done).
    rewrite filter_all; [simpl; lia|].
    intros y Hy Hyt. apply Hx. rewrite Heq, <-Hyt.
    by apply list_elem_of_fmap_2.
  - rewrite filter_cons_True by done.
    apply elem_of_cons in Ht as [->|Ht]; [done|].
    cbn [length]. rewrite IH by done.
    destruct l; [by apply elem_of_nil in Ht|]. simpl. lia.
Qed.

End Distinct.

(** ** The Listening engine *)

Section Listening.
Import QuizMode.
Context {Sh : Shuffler} (words : list Word).

Lemma wrongOptionsOf_submseteq ρ target :
  wrongOptionsOf words ρ target ⊆+ filter (λ x, id x ≠ id target) words.
Proof.
  unfold wrongOptionsOf. etrans; [apply submseteq_take|].
  by rewrite shuffle_perm.
Qed.

Lemma wrongOptionsOf_spec ρ target :
  4 ≤ length words → NoDup (ids words) → target ∈ words →
  length (wrongOptionsOf words ρ target) = 3 ∧
  NoDup (ids (wrongOptionsOf words ρ target)) ∧
  Forall (λ o, o ∈ words ∧ id o ≠ id target) (wrongOptionsOf words ρ target).
Proof.
  intros Hlen Hnd Ht. pose proof (wrongOptionsOf_submseteq ρ target) as Hsub.
  split_and!.
  - unfold wrongOptionsOf. apply length_take_le.
    rewrite shuffle_perm, length_others by done. lia.
  - eapply submseteq_NoDup; [|exact Hnd]. apply ids_submseteq.
    etrans; [exact Hsub|]. apply sublist_submseteq, sublist_filter.
  - apply Forall_forall. intros o Ho.
    eapply elem_of_submseteq in Ho; [|exact Hsub].
    by apply list_elem_of_filter in Ho as [? ?].
Qed.

(** C5.  With at least four words of pairwise distinct identifiers, a
    Listening round shows four options: the target and three distinct
    words of the pool other than the target, so exactly one option carries
    the target's identifier.  While the feedback is not CORRECT a click on
    an option selects it: on the target's identifier the feedback becomes
    CORRECT and the advance is scheduled, on any other it becomes WRONG,
    nothing is scheduled and the round stays as it is, open to the next
    click.  Once the feedback is CORRECT a click changes nothing. *)
Theorem listening_round (ρ : Draws) (s : State) (ts : list nat) (n : nat) :
  4 ≤ length words →
  NoDup (ids words) →
  floorRandom (dType ρ) 4 = 3 →
  let w0 := {| ui := setupRound words ρ s; mounted := true; timers := ts;
               exits := n |} in
  (∃ target,
     currentType (ui w0) = LISTENING ∧ currentWord (ui w0) = Some target ∧
     listeningFeedback (ui w0) = NONE ∧ target ∈ words ∧
     let options := listeningOptions (ui w0) in
     let wrong := wrongOptionsOf words ρ target in
     options ≡ₚ target :: wrong ∧
     length options = 4 ∧
     length wrong = 3 ∧
     NoDup (ids wrong) ∧
     Forall (λ o, o ∈ words ∧ id o ≠ id target) wrong ∧
     NoDup (ids options) ∧
     length (filter (λ o, id o = id target) options) = 1) ∧
  (∀ w target k o,
     mounted w = true →
     currentType (ui w) = LISTENING →
     currentWord (ui w) = Some target →
     listeningOptions (ui w) !! k = Some o →
     let w' := step words w (ClickOption k) in
     (listeningFeedback (ui w) = CORRECT → w' = w) ∧
     (listeningFeedback (ui w) ≠ CORRECT →
      selectedOption (ui w') = Some (id o) ∧
      (id o = id target →
       listeningFeedback (ui w') = CORRECT ∧
       timers w' = timers w ++ [currentRound (ui w)]) ∧
      (id o ≠ id target →
       listeningFeedback (ui w') = WRONG ∧ timers w' = timers w) ∧
      mounted w' = true ∧ currentType (ui w') = LISTENING ∧
      currentWord (ui w') = Some target ∧
      currentRound (ui w') = currentRound (ui w) ∧
      listeningOptions (ui w') = listeningOptions (ui w))).
Proof.
  intros Hlen Hnd Hty w0.
  assert (insufficient words = false) as Hins.
  { unfold insufficient. apply bool_decide_eq_false. lia. }
  split.
  - assert (words ≠ []) as Hne by (intros E; rewrite E in Hlen; simpl in Hlen; lia).
    assert (∃ x, x ∈ words) as [x _].
    { destruct words as [|x ?]; [done|]. exists x. left. }
    set (target := drawnWord words ρ x). exists target.
    assert (drawnType ρ = LISTENING) as Hdrawn.
    { unfold drawnType. change (length types) with 4. by rewrite Hty. }
    assert (ui w0 = setupListening words ρ target (resetRound LISTENING target s)) as Hui.
    { subst w0. cbn [ui]. rewrite (setupRound_nonempty words ρ s x Hne).
      cbn zeta. by rewrite Hdrawn. }
    assert (target ∈ words) as Ht by by apply drawnWord_elem_of.
    do 3 (split; [by rewrite Hui|]). split; [done|].
    intros options wrong.
    destruct (wrongOptionsOf_spec ρ target Hlen Hnd Ht) as (Hw3 & Hwnd & Hwall).
    fold wrong in Hw3, Hwnd, Hwall.
    assert (options ≡ₚ target :: wrong) as Hperm.
    { subst options. rewrite Hui. apply shuffle_perm. }
    assert (id target ∉ ids wrong) as Hfresh.
    { intros (o & Ho & Hin)%list_elem_of_fmap.
      rewrite Forall_forall in Hwall. destruct (Hwall o Hin) as [_ ?]. done. }
    split_and!; try done.
    + rewrite Hperm. simpl. lia.
    + unfold ids. rewrite Hperm. cbn [fmap list_fmap]. by apply NoDup_cons.
    + rewrite Hperm. rewrite filter_cons_True by done.
      rewrite filter_none; [done|]. intros o Ho.
      rewrite Forall_forall in Hwall. by destruct (Hwall o Ho).
  - intros w target k o Hm Hlt Hcw Hk w'. subst w'.
    destruct w as [u m ts' n']. destruct u. simpl in *. subst.
    unfold step, click, checkListening, update. rewrite Hins. simpl. rewrite Hk.
    split; intros Hfb.
    + by case_decide.
    + case_decide; [done|].
      destruct (decide (id o = id target)); simpl; split_and!; done.
Qed.

End Listening.

(** A Listening round on six words. *)
Lemma listening_round_witness :
  let ρ := quizDraws 3 1 0 2 3 in
  let w0 := QuizMode.mount pool6 ρ in
  (4 ≤ length pool6 ∧ NoDup (ids pool6) ∧ floorRandom (QuizMode.dType ρ) 4 = 3) ∧
  ∃ target,
    QuizMode.currentWord (QuizMode.ui w0) = Some target ∧
    length (QuizMode.listeningOptions (QuizMode.ui w0)) = 4 ∧
    length (filter (λ o, id o = id target)
              (QuizMode.listeningOptions (QuizMode.ui w0))) = 1.
Proof.
  intros ρ w0.
  assert (4 ≤ length pool6) as Hlen by (simpl; lia).
  assert (NoDup (ids pool6)) as Hnd by (apply (bool_decide_unpack _); vm_compute; exact I).
  assert (floorRandom (QuizMode.dType ρ) 4 = 3) as Hty by reflexivity.
  split; [done|].
  destruct (listening_round pool6 ρ QuizMode.initial [] 0 Hlen Hnd Hty)
    as [(target & _ & Hcw & _ & _ & _ & H4 & _ & _ & _ & _ & H1) _].
  exists target. split_and!; [exact Hcw|exact H4|exact H1].
Defined.

(** ** The Matching engine of the quiz *)

Section QuizMatching.
Import QuizMode.
Context {Sh : Shuffler} (words : list Word).

Lemma matchingInv_bound s :
  matchingInv s → length (matchingPairs s) ≤ length (matchingLeft s).
Proof.
  intros (Hnd & Hsub & _).
  rewrite <-(length_fmap id (matchingLeft s)).
  by apply submseteq_length, NoDup_submseteq.
Qed.

Lemma includes_true i l : includes i l = true ↔ i ∈ l.
Proof. unfold includes. apply bool_decide_eq_true. Qed.

Lemma includes_false i l : includes i l = false ↔ i ∉ l.
Proof. unfold includes. apply bool_decide_eq_false. Qed.

Lemma setupRound_matchingInv ρ s :
  matchingInv s → matchingInv (setupRound words ρ s).
Proof.
  intros Hinv. unfold setupRound. destruct words as [|x ws]; [done|].
  destruct (nth _ types MATCHING); try done.
  split_and!; cbn; [constructor|by intros ? ?%elem_of_nil|done].
Qed.

Lemma handleMatchLeft_matchingInv i w :
  i ∈ ids (matchingLeft (ui w)) →
  matchingInv (ui w) → matchingInv (ui (handleMatchLeft i w)).
Proof.
  intros Hi Hinv. pose proof Hinv as (Hnd & Hsub & Hsel).
  unfold handleMatchLeft, update.
  destruct (includes _ _); cbn; [done|].
  destruct (mounted w); cbn; [|done].
  split_and!; [done..|]. by intros ? [= <-].
Qed.

Lemma handleMatchRight_matchingInv i w :
  matchingInv (ui w) → matchingInv (ui (handleMatchRight i w)).
Proof.
  intros Hinv. pose proof Hinv as (Hnd & Hsub & Hsel).
  unfold handleMatchRight, update.
  destruct (falsy _); cbn; [done|].
  destruct (includes _ _) eqn:Hinc; cbn; [done|].
  apply includes_false in Hinc.
  case_decide as Heq; destruct (mounted w); try case_decide; cbn; try done.
  all: split_and!; cbn; try done.
  all: try (apply NoDup_app; split_and!;
            [done|by intros ? ? ->%list_elem_of_singleton|apply NoDup_singleton]).
  all: intros j [?| ->%list_elem_of_singleton]%elem_of_app; auto.
Qed.

Lemma click_matchingInv e w :
  matchingInv (ui w) → matchingInv (ui (click e w)).
Proof.
  intros Hinv. destruct e; unfold click; try done.
  - destruct (currentType _); try done.
    destruct (matchingLeft (ui w) !! k) as [x|] eqn:Hk; [|done].
    destruct (includes _ _); [done|].
    apply handleMatchLeft_matchingInv; [|done].
    apply list_elem_of_fmap_2. by eapply list_elem_of_lookup_2.
  - destruct (currentType _); try done.
    destruct (matchingRight (ui w) !! k) as [x|] eqn:Hk; [|done].
    destruct (includes _ _); [done|]. by apply handleMatchRight_matchingInv.
  - unfold update. repeat case_match; done.
  - unfold checkTyping, update, schedule. repeat (case_match || case_decide); done.
  - unfold toggleSentenceBlock, update. repeat case_match; done.
  - unfold toggleSentenceBlock, update. repeat case_match; done.
  - unfold checkSentence, update, schedule. repeat (case_match || case_decide); done.
  - unfold checkListening, update, schedule. repeat (case_match || case_decide); done.
Qed.

Lemma step_matchingInv w e :
  matchingInv (ui w) → matchingInv (ui (step words w e)).
Proof.
  intros Hinv. unfold step.
  destruct e; try (destruct (mounted w && negb _); [by apply click_matchingInv|done]).
  - by destruct (mounted w).
  - destruct (timers w !! k) as [seen|]; [|done].
    unfold handleNext, update, onExit, dropTimer. cbn.
    case_decide; [|done]. destruct (mounted w); [|done]. cbn.
    by apply setupRound_matchingInv.
Qed.

Lemma run_matchingInv w es :
  matchingInv (ui w) → matchingInv (ui (run words w es)).
Proof.
  revert w. induction es as [|e es IH]; intros w Hinv; [done|].
  cbn. apply IH. by apply step_matchingInv.
Qed.

Lemma mount_matchingInv ρ : matchingInv (ui (mount words ρ)).
Proof.
  apply setupRound_matchingInv. split_and!; cbn; [constructor|..].
  - by intros ? ?%elem_of_nil.
  - done.
Qed.

Lemma selection_step_grows w x :
  let w' := step words w (selectionEvent x) in
  matchingPairs (ui w) `prefix_of` matchingPairs (ui w') ∧
  matchingLeft (ui w') = matchingLeft (ui w).
Proof.
  destruct x; cbn; unfold click, handleMatchLeft, handleMatchRight, update, schedule;
    repeat (case_match || case_decide); cbn; split; try done.
  all: by apply prefix_app_r.
Qed.

Lemma selection_run_grows w xs :
  let w' := run words w (selectionEvent <$> xs) in
  matchingPairs (ui w) `prefix_of` matchingPairs (ui w') ∧
  matchingLeft (ui w') = matchingLeft (ui w).
Proof.
  revert w. induction xs as [|x xs IH]; intros w; [done|].
  cbn [fmap list_fmap run foldl].
  destruct (selection_step_grows w x) as [Hp Hl].
  destruct (IH (step words w (selectionEvent x))) as [Hp' Hl'].
  split; [by etrans|]. by rewrite <-Hl.
Qed.

Lemma handleMatchLeft_matched i w :
  i ∈ matchingPairs (ui w) → handleMatchLeft i w = w.
Proof.
  intros Hi%includes_true. unfold handleMatchLeft. by rewrite Hi.
Qed.

Lemma handleMatchRight_matched i w :
  i ∈ matchingPairs (ui w) → handleMatchRight i w = w.
Proof.
  intros Hi%includes_true. unfold handleMatchRight.
  by rewrite Hi, orb_true_r.
Qed.

Lemma handleMatchRight_unselected i w :
  falsy (selectedLeft (ui w)) = true → handleMatchRight i w = w.
Proof. intros Hf. unfold handleMatchRight. by rewrite Hf. Qed.

End QuizMatching.

(** ** The review sampler *)

Section ReviewSampler.
Import ReviewMode.
Context {Sh : Shuffler} (words : list Word).

Lemma sampleLoop_S ρ w0 todo i pool roundWords :
  sampleLoop words ρ w0 (S todo) i pool roundWords =
  let k := floorRandom (dPick ρ i) (length (refilled words pool)) in
  sampleLoop words ρ w0 todo (S i) (delete k (refilled words pool))
    (roundWords ++ [nth k (refilled words pool) w0]).
Proof. done. Qed.

Lemma refilled_nonempty pool : words ≠ [] → 0 < length (refilled words pool).
Proof.
  intros Hne. unfold refilled. case_decide as Hp; [|lia].
  rewrite length_app. destruct words; [done|]. simpl. lia.
Qed.

Lemma refilled_subseteq pool : pool ⊆ words → refilled words pool ⊆ words.
Proof.
  intros Hp. unfold refilled. case_decide; [|done].
  intros x [?|?]%elem_of_app; auto.
Qed.

Lemma drawn_lookup d w0 (pool : list Word) :
  0 < length pool →
  pool !! floorRandom d (length pool) = Some (nth (floorRandom d (length pool)) pool w0).
Proof.
  intros Hp. destruct (nth_lookup_or_length pool (floorRandom d (length pool)) w0)
    as [?|Hge]; [done|].
  pose proof (floorRandom_lt d (length pool) Hp). lia.
Qed.

Lemma sampleLoop_length ρ w0 todo i pool roundWords :
  length (sampleLoop words ρ w0 todo i pool roundWords) = length roundWords + todo.
Proof.
  revert i pool roundWords. induction todo as [|todo IH]; intros i pool rw.
  - simpl. lia.
  - rewrite sampleLoop_S. cbn zeta. rewrite IH, length_app. simpl. lia.
Qed.

Lemma sampleLoop_subseteq ρ w0 todo i pool roundWords :
  words ≠ [] → pool ⊆ words → roundWords ⊆ words →
  sampleLoop words ρ w0 todo i pool roundWords ⊆ words.
Proof.
  intros Hne. revert i pool roundWords.
  induction todo as [|todo IH]; intros i pool rw Hp Hrw; [done|].
  rewrite sampleLoop_S. cbn zeta.
  pose proof (refilled_nonempty pool Hne) as Hlen.
  pose proof (refilled_subseteq pool Hp) as Hsub.
  apply IH.
  - intros x Hx%list_elem_of_delete_inv. by apply Hsub.
  - intros x [?| ->%list_elem_of_singleton]%elem_of_app; [by apply Hrw|].
    apply Hsub. eapply list_elem_of_lookup_2. by apply drawn_lookup.
Qed.

(** As long as the pool holds enough words for the turns left, it is never
    refilled, and what was drawn together with what is left is part of
    the vocabulary. *)
Lemma sampleLoop_submseteq ρ w0 todo i pool roundWords :
  todo ≤ length pool → roundWords ++ pool ⊆+ words →
  sampleLoop words ρ w0 todo i pool roundWords ⊆+ words.
Proof.
  revert i pool roundWords.
  induction todo as [|todo IH]; intros i pool rw Hlen Hsub.
  - simpl. etrans; [|exact Hsub]. by apply submseteq_inserts_r.
  - rewrite sampleLoop_S. cbn zeta.
    assert (refilled words pool = pool) as ->.
    { unfold refilled. case_decide; [lia|done]. }
    pose proof (drawn_lookup (dPick ρ i) w0 pool ltac:(lia)) as Hk.
    apply IH.
    + rewrite length_delete by done. lia.
    + rewrite <-app_assoc. cbn [app]. by rewrite <-delete_Permutation.
Qed.

Lemma roundWordsOf_spec ρ w0 :
  words ≠ [] →
  length (roundWordsOf words ρ w0) = 5 ∧
  roundWordsOf words ρ w0 ⊆ words ∧
  (5 ≤ length words → roundWordsOf words ρ w0 ⊆+ words).
Proof.
  intros Hne. unfold roundWordsOf. split_and!.
  - by rewrite sampleLoop_length.
  - apply sampleLoop_subseteq; [done..|]. by intros ? ?%elem_of_nil.
  - intros ?. by apply sampleLoop_submseteq.
Qed.

Lemma review_setupRound_eq ρ s w0 ws :
  words = w0 :: ws →
  setupRound words ρ s =
  let roundWords := roundWordsOf words ρ w0 in
  setSelectedLeft None
    (setMatchedPairs []
       (setShuffledRight
          (shuffle (dSeed2 ρ)
             (imap (λ k w, {| word := w;
                              targetType := if dCoin ρ k then HIRAGANA else MEANING |})
                roundWords))
          (setShuffledLeft (shuffle (dSeed1 ρ) roundWords) s))).
Proof.
  intros Hw. unfold setupRound. destruct words; [done|]. by injection Hw as -> ->.
Qed.

Lemma review_setupRound_spec ρ s w0 ws :
  words = w0 :: ws →
  let roundWords := roundWordsOf words ρ w0 in
  let s' := setupRound words ρ s in
  currentRound s' = currentRound s ∧ selectedLeft s' = None ∧
  matchedPairs s' = [] ∧
  shuffledLeft s' ≡ₚ roundWords ∧
  word <$> shuffledRight s' ≡ₚ roundWords.
Proof.
  intros Hw roundWords s'. subst s'.
  rewrite (review_setupRound_eq ρ s w0 ws Hw). cbn -[roundWordsOf].
  fold roundWords. split_and!; try done.
  - apply shuffle_perm.
  - rewrite shuffle_perm, fmap_imap.
    rewrite (imap_ext _ (const (λ x, x))) by done.
    by rewrite imap_const, list_fmap_id.
Qed.


End ReviewSampler.


(** ** The review session *)

Section Review.
Import ReviewMode.
Context {Sh : Shuffler} (words : list Word).

Lemma review_setupRound_inv ρ s :
  reviewInv words s → reviewInv words (setupRound words ρ s).
Proof.
  intros Hinv. destruct words as [|w0 ws] eqn:Hw; [done|]. rewrite <-Hw in *.
  assert (words ≠ []) as Hne by by rewrite Hw.
  destruct (review_setupRound_spec words ρ s w0 ws Hw) as (Hr & Hs & Hm & Hl & _).
  destruct (roundWordsOf_spec words ρ w0 Hne) as (H5 & Hsub & _).
  destruct Hinv as (_ & _ & _ & Hround & _).
  split_and!.
  - rewrite Hm. constructor.
  - rewrite Hm. by intros ? ?%elem_of_nil.
  - by rewrite Hs.
  - rewrite Hr. lia.
  - rewrite Hr. lia.
  - right. split; [by rewrite Hl|]. intros x Hx. rewrite Hl in Hx. by apply Hsub.
Qed.

Lemma handleLeftClick_inv i w :
  i ∈ ids (shuffledLeft (ui w)) →
  reviewInv words (ui w) → reviewInv words (ui (handleLeftClick i w)).
Proof.
  intros Hi Hinv. pose proof Hinv as (Hnd & Hsub & Hsel & [? ?] & Hl).
  unfold handleLeftClick, update.
  destruct (includes _ _); cbn; [done|].
  destruct (mounted w); cbn; [|done].
  split_and!; try done. by intros ? [= <-].
Qed.

Lemma handleRightClick_inv i w :
  reviewInv words (ui w) → reviewInv words (ui (handleRightClick i w)).
Proof.
  intros Hinv. pose proof Hinv as (Hnd & Hsub & Hsel & [? ?] & Hl).
  unfold handleRightClick, update.
  destruct (falsy _); cbn; [done|].
  destruct (includes _ _) eqn:Hinc; cbn; [done|].
  apply includes_false in Hinc.
  case_decide as Heq; destruct (mounted w); cbn; try done.
  all: split_and!; cbn; try done.
  - apply NoDup_app. split_and!;
      [done|by intros ? ? ->%list_elem_of_singleton|apply NoDup_singleton].
  - intros j [?| ->%list_elem_of_singleton]%elem_of_app; auto.
Qed.

Lemma handleNextRound_inv ρ w :
  reviewInv words (ui w) → reviewInv words (ui (handleNextRound words ρ w)).
Proof.
  intros Hinv. unfold handleNextRound, update, onExit.
  case_decide as Hlt; [|done]. destruct (mounted w); [|done]. cbn.
  apply review_setupRound_inv.
  destruct Hinv as (? & ? & ? & [? ?] & ?). split_and!; try done; cbn; lia.
Qed.

Lemma review_click_inv e w :
  reviewInv words (ui w) → reviewInv words (ui (click words e w)).
Proof.
  intros Hinv. destruct e; unfold click; try done.
  - destruct (shuffledLeft (ui w) !! k) as [x|] eqn:Hk; [|done].
    destruct (includes _ _); [done|].
    apply handleLeftClick_inv; [|done].
    apply list_elem_of_fmap_2. by eapply list_elem_of_lookup_2.
  - destruct (shuffledRight (ui w) !! k) as [x|] eqn:Hk; [|done].
    destruct (includes _ _); [done|]. by apply handleRightClick_inv.
  - destruct (_ && _); [|done]. by apply handleNextRound_inv.
  - by destruct (_ && _).
Qed.

Lemma review_step_inv w e :
  reviewInv words (ui w) → reviewInv words (ui (step words w e)).
Proof.
  intros Hinv. unfold step.
  destruct e; try (destruct (mounted w && negb _); [by apply review_click_inv|done]).
  by destruct (mounted w).
Qed.

Lemma review_run_inv w es :
  reviewInv words (ui w) → reviewInv words (ui (run words w es)).
Proof.
  revert w. induction es as [|e es IH]; intros w Hinv; [done|].
  cbn. apply IH. by apply review_step_inv.
Qed.

Lemma review_mount_inv ρ : reviewInv words (ui (mount words ρ)).
Proof.
  apply review_setupRound_inv. split_and!; cbn; try done.
  - constructor.
  - unfold TOTAL_ROUNDS. lia.
  - by left.
Qed.

(** A completed round has five distinct identifiers on the left. *)
Lemma complete_distinct s :
  reviewInv words s → isRoundComplete s = true →
  length (shuffledLeft s) = 5 ∧ NoDup (ids (shuffledLeft s)).
Proof.
  intros (Hnd & Hsub & _ & _ & Hl). unfold isRoundComplete.
  intros [Hpos%bool_decide_eq_true Heq%bool_decide_eq_true]%andb_true_iff.
  destruct Hl as [Hl|[H5 _]]; [rewrite Hl in Hpos; simpl in Hpos; lia|].
  split; [done|].
  assert (matchedPairs s ≡ₚ ids (shuffledLeft s)) as <-; [|done].
  apply submseteq_length_Permutation.
  - by apply NoDup_submseteq.
  - unfold ids. rewrite length_fmap. lia.
Qed.

Lemma review_selection_step_grows w x :
  let w' := step words w (reviewEvent x) in
  matchedPairs (ui w) `prefix_of` matchedPairs (ui w') ∧
  shuffledLeft (ui w') = shuffledLeft (ui w).
Proof.
  destruct x; cbn; unfold click, handleLeftClick, handleRightClick, update;
    repeat (case_match || case_decide); cbn; split; try done.
  all: by apply prefix_app_r.
Qed.

Lemma review_selection_run_grows w xs :
  let w' := run words w (reviewEvent <$> xs) in
  matchedPairs (ui w) `prefix_of` matchedPairs (ui w') ∧
  shuffledLeft (ui w') = shuffledLeft (ui w).
Proof.
  revert w. induction xs as [|x xs IH]; intros w; [done|].
  cbn [fmap list_fmap run foldl].
  destruct (review_selection_step_grows w x) as [Hp Hl].
  destruct (IH (step words w (reviewEvent x))) as [Hp' Hl'].
  split; [by etrans|]. by rewrite <-Hl.
Qed.

Lemma handleLeftClick_matched i w :
  i ∈ matchedPairs (ui w) → handleLeftClick i w = w.
Proof. intros Hi%includes_true. unfold handleLeftClick. by rewrite Hi. Qed.

Lemma handleRightClick_matched i w :
  i ∈ matchedPairs (ui w) → handleRightClick i w = w.
Proof.
  intros Hi%includes_true. unfold handleRightClick. by rewrite Hi, orb_true_r.
Qed.

Lemma handleRightClick_unselected i w :
  falsy (selectedLeft (ui w)) = true → handleRightClick i w = w.
Proof. intros Hf. unfold handleRightClick. by rewrite Hf. Qed.

End Review.

(** C2.  In the Matching engine of the quiz and in that of the review,
    from any state a session can reach, every sequence of selections on
    the left and right cards only extends the list of matched identifiers,
    keeps them distinct and never makes them more than the pairs of the
    round; selecting an identifier that is already matched (on either
    side), or a right card while no left card is selected, leaves the
    whole state as it is. *)
Theorem matching_engine {Sh : Shuffler} (words : list Word) :
  (∀ (ρ : QuizMode.Draws) es xs,
     let w := QuizMode.run words (QuizMode.mount words ρ) es in
     let w' := QuizMode.run words w (selectionEvent <$> xs) in
     QuizMode.matchingPairs (QuizMode.ui w)
       `prefix_of` QuizMode.matchingPairs (QuizMode.ui w') ∧
     length (QuizMode.matchingPairs (QuizMode.ui w))
       ≤ length (QuizMode.matchingPairs (QuizMode.ui w')) ∧
     NoDup (QuizMode.matchingPairs (QuizMode.ui w')) ∧
     QuizMode.matchingLeft (QuizMode.ui w') = QuizMode.matchingLeft (QuizMode.ui w) ∧
     length (QuizMode.matchingPairs (QuizMode.ui w'))
       ≤ length (QuizMode.matchingLeft (QuizMode.ui w'))) ∧
  (∀ w i, i ∈ QuizMode.matchingPairs (QuizMode.ui w) →
     QuizMode.handleMatchLeft i w = w ∧ QuizMode.handleMatchRight i w = w) ∧
  (∀ w i, falsy (QuizMode.selectedLeft (QuizMode.ui w)) = true →
     QuizMode.handleMatchRight i w = w) ∧
  (∀ (ρ : ReviewMode.Draws) es xs,
     let w := ReviewMode.run words (ReviewMode.mount words ρ) es in
     let w' := ReviewMode.run words w (reviewEvent <$> xs) in
     ReviewMode.matchedPairs (ReviewMode.ui w)
       `prefix_of` ReviewMode.matchedPairs (ReviewMode.ui w') ∧
     length (ReviewMode.matchedPairs (ReviewMode.ui w))
       ≤ length (ReviewMode.matchedPairs (ReviewMode.ui w')) ∧
     NoDup (ReviewMode.matchedPairs (ReviewMode.ui w')) ∧
     ReviewMode.shuffledLeft (ReviewMode.ui w') = ReviewMode.shuffledLeft (ReviewMode.ui w) ∧
     length (ReviewMode.matchedPairs (ReviewMode.ui w'))
       ≤ length (ReviewMode.shuffledLeft (ReviewMode.ui w'))) ∧
  (∀ w i, i ∈ ReviewMode.matchedPairs (ReviewMode.ui w) →
     ReviewMode.handleLeftClick i w = w ∧ ReviewMode.handleRightClick i w = w) ∧
  (∀ w i, falsy (ReviewMode.selectedLeft (ReviewMode.ui w)) = true →
     ReviewMode.handleRightClick i w = w).
Proof.
  split_and!.
  - intros ρ es xs w w'.
    destruct (selection_run_grows words w xs) as [Hp Hl]. fold w' in Hp, Hl.
    assert (matchingInv (QuizMode.ui w')) as Hinv.
    { do 2 apply run_matchingInv. apply mount_matchingInv. }
    split_and!; [done|by apply prefix_length|apply Hinv|done|by apply matchingInv_bound].
  - intros w i Hi. split.
    + by apply handleMatchLeft_matched.
    + by apply handleMatchRight_matched.
  - intros w i. apply handleMatchRight_unselected.
  - intros ρ es xs w w'.
    destruct (review_selection_run_grows words w xs) as [Hp Hl]. fold w' in Hp, Hl.
    assert (reviewInv words (ReviewMode.ui w')) as (Hnd & Hsub & _).
    { do 2 apply review_run_inv. apply review_mount_inv. }
    split_and!; [done|by apply prefix_length|done..|].
    rewrite <-(length_fmap id (ReviewMode.shuffledLeft _)).
    by apply submseteq_length, NoDup_submseteq.
  - intros w i Hi. split.
    + by apply handleLeftClick_matched.
    + by apply handleRightClick_matched.
  - intros w i. apply handleRightClick_unselected.
Qed.

(** C10.  In every state a review session can reach, the matched
    identifiers are pairwise distinct: an identifier that is already matched
    is not appended again, on however many cards it appears.  So the round
    is complete only if its five cards carry five distinct identifiers;
    with repeated identifiers it is never complete, and with fewer than
    five words in the vocabulary no round ever is. *)
Theorem review_matched_once {Sh : Shuffler} (words : list Word)
    (ρ : ReviewMode.Draws) (es : list ReviewMode.Event) :
  let w := ReviewMode.run words (ReviewMode.mount words ρ) es in
  let s := ReviewMode.ui w in
  NoDup (ReviewMode.matchedPairs s) ∧
  (∀ i, i ∈ ReviewMode.matchedPairs s → ReviewMode.handleRightClick i w = w) ∧
  (ReviewMode.isRoundComplete s = true →
   length (ReviewMode.shuffledLeft s) = 5 ∧ NoDup (ids (ReviewMode.shuffledLeft s))) ∧
  (¬ NoDup (ids (ReviewMode.shuffledLeft s)) → ReviewMode.isRoundComplete s = false) ∧
  (length words < 5 → ReviewMode.isRoundComplete s = false).
Proof.
  intros w s.
  assert (reviewInv words s) as Hinv.
  { apply review_run_inv, review_mount_inv. }
  split_and!.
  - apply Hinv.
  - intros i Hi. by apply handleRightClick_matched.
  - by apply (complete_distinct words).
  - intros Hdup. destruct (ReviewMode.isRoundComplete s) eqn:Hc; [|done].
    destruct Hdup. by apply (complete_distinct words).
  - intros Hlt. destruct (ReviewMode.isRoundComplete s) eqn:Hc; [|done].
    destruct (complete_distinct words s Hinv Hc) as [H5 Hnd].
    destruct Hinv as (_ & _ & _ & _ & [Hl|[_ Hsub]]).
    { rewrite Hl in H5. done. }
    assert (length (ids (ReviewMode.shuffledLeft s)) ≤ length (ids words)) as Hle.
    { apply submseteq_length, NoDup_submseteq; [done|].
      intros i (x & -> & Hx)%list_elem_of_fmap.
      by apply list_elem_of_fmap_2, Hsub. }
    unfold ids in Hle. rewrite !length_fmap in Hle. lia.
Qed.

(** A matching round of the quiz on four words, played to the end. *)
Lemma matching_engine_witness :
  let xs := [PickLeft 0; PickRight 1; PickLeft 1; PickRight 0; PickLeft 1;
             PickRight 2; PickLeft 2; PickRight 0; PickRight 0; PickLeft 0] in
  let w0 := QuizMode.mount pool4 (quizDraws 0 0 0 1 2) in
  let w' := QuizMode.run pool4 w0 (selectionEvent <$> xs) in
  NoDup (QuizMode.matchingPairs (QuizMode.ui w')) ∧
  length (QuizMode.matchingPairs (QuizMode.ui w'))
    ≤ length (QuizMode.matchingLeft (QuizMode.ui w')).
Proof.
  intros xs w0 w'.
  pose proof (proj1 (matching_engine pool4) (quizDraws 0 0 0 1 2) [] xs)
    as (_ & _ & Hnd & _ & Hle).
  split; [exact Hnd|exact Hle].
Defined.

(** The same run, computed: three pairs matched, one wrong try in between,
    two clicks on cards already matched at the end; the advance is
    scheduled once. *)
Example matching_round_played :
  let xs := [PickLeft 0; PickRight 1; PickLeft 1; PickRight 0; PickLeft 1;
             PickRight 2; PickLeft 2; PickRight 0; PickRight 0; PickLeft 0] in
  let w' := QuizMode.run pool4 (QuizMode.mount pool4 (quizDraws 0 0 0 1 2))
              (selectionEvent <$> xs) in
  QuizMode.matchingPairs (QuizMode.ui w') = [id w2; id w3; id w4] ∧
  QuizMode.selectedLeft (QuizMode.ui w') = None ∧
  QuizMode.timers w' = [1].
Proof. by vm_compute. Qed.

(** A review round on three words, every identifier matched once. *)
Lemma review_matched_once_witness :
  let xs := [PickLeft 1; PickRight 0; PickLeft 2; PickRight 1; PickLeft 0;
             PickRight 2; PickLeft 3; PickRight 4; PickLeft 4; PickRight 3] in
  let w := ReviewMode.run pool3 (ReviewMode.mount pool3 (reviewDraws 1 1 2))
             (reviewEvent <$> xs) in
  length pool3 < 5 ∧
  NoDup (ReviewMode.matchedPairs (ReviewMode.ui w)) ∧
  ReviewMode.isRoundComplete (ReviewMode.ui w) = false.
Proof.
  intros xs w.
  assert (length pool3 < 5) as Hlt by (simpl; lia).
  pose proof (review_matched_once pool3 (reviewDraws 1 1 2) (reviewEvent <$> xs))
    as (Hnd & _ & _ & _ & Hnever).
  split; [exact Hlt|]. split; [exact Hnd|exact (Hnever Hlt)].
Defined.

(** The same run, computed: with three words the five cards repeat two
    identifiers; after each identifier is matched once the remaining cards
    are dead and the round stays incomplete. *)
Example review_round_stuck :
  let xs := [PickLeft 1; PickRight 0; PickLeft 2; PickRight 1; PickLeft 0;
             PickRight 2; PickLeft 3; PickRight 4; PickLeft 4; PickRight 3] in
  let w := ReviewMode.run pool3 (ReviewMode.mount pool3 (reviewDraws 1 1 2))
             (reviewEvent <$> xs) in
  ids (ReviewMode.shuffledLeft (ReviewMode.ui w)) = [id w3; id w1; id w2; id w3; id w2] ∧
  ReviewMode.matchedPairs (ReviewMode.ui w) = [id w1; id w2; id w3] ∧
  ReviewMode.isRoundComplete (ReviewMode.ui w) = false.
Proof. by vm_compute. Qed.

(** ** Starting a session *)

Section Start.
Import QuizMode.
Context {Sh : Shuffler} (words : list Word).

Lemma idle_step w0 w e :
  insufficient words = true → idle w0 w → idle w0 (step words w e).
Proof.
  intros Hins (Hui & Ht & Hm). unfold step. rewrite Hins, Ht, andb_false_r.
  destruct e; try done.
  unfold onExit.
  destruct Hm as [[Hm He]|[Hm He]]; rewrite Hm.
  - split_and!; cbn; [done..|]. right. by rewrite He.
  - split_and!; [done..|]. by right.
Qed.

Lemma idle_run w0 w es :
  insufficient words = true → idle w0 w → idle w0 (run words w es).
Proof.
  intros Hins. revert w. induction es as [|e es IH]; intros w Hw; [done|].
  cbn. by apply IH, idle_step.
Qed.

Lemma idle_ignores w0 w e :
  insufficient words = true → idle w0 w → e ≠ ClickExit → step words w e = w.
Proof.
  intros Hins (_ & Ht & _) He. unfold step. rewrite Hins, Ht, andb_false_r.
  by destruct e.
Qed.

Lemma setupRound_currentRound ρ s :
  currentRound (setupRound words ρ s) = currentRound s.
Proof.
  unfold setupRound. destruct words; [done|].
  by destruct (nth _ types MATCHING).
Qed.

End Start.




(** ** Auto-advance timers *)

(** C9 (as amended).  No auto-advance timer is ever cancelled: no event
    but its own firing removes a pending timer, neither a new round nor
    the exit of the session.  A timer that fires runs [handleNext] with
    the round number it captured when it was scheduled: below the total it
    increments the live round number and sets up a new round if the quiz
    is still mounted, and does nothing if the quiz was left; at the total
    or above it calls [onExit], mounted or not. *)
Theorem timers_never_cancelled {Sh : Shuffler} (words : list Word)
    (w : QuizMode.World) :
  (∀ e, (∀ k ρ, e ≠ QuizMode.Fire k ρ) →
     QuizMode.timers w `prefix_of` QuizMode.timers (QuizMode.step words w e)) ∧
  (∀ k ρ seen,
     QuizMode.timers w !! k = Some seen →
     let w' := QuizMode.step words w (QuizMode.Fire k ρ) in
     QuizMode.timers w' = delete k (QuizMode.timers w) ∧
     (seen < TOTAL_ROUNDS → QuizMode.mounted w = true →
      QuizMode.ui w' =
        QuizMode.setupRound words ρ
          (QuizMode.setCurrentRound (QuizMode.currentRound (QuizMode.ui w) + 1)
             (QuizMode.ui w)) ∧
      QuizMode.currentRound (QuizMode.ui w') = QuizMode.currentRound (QuizMode.ui w) + 1 ∧
      QuizMode.exits w' = QuizMode.exits w) ∧
     (seen < TOTAL_ROUNDS → QuizMode.mounted w = false →
      QuizMode.ui w' = QuizMode.ui w ∧ QuizMode.exits w' = QuizMode.exits w) ∧
     (TOTAL_ROUNDS ≤ seen →
      QuizMode.ui w' = QuizMode.ui w ∧ QuizMode.exits w' = S (QuizMode.exits w))).
Proof.
  split.
  - intros e He. destruct e; try (by destruct (He k ρ)); cbn.
    all: unfold QuizMode.click, QuizMode.handleMatchLeft, QuizMode.handleMatchRight,
           QuizMode.checkTyping, QuizMode.toggleSentenceBlock, QuizMode.checkSentence,
           QuizMode.checkListening, QuizMode.update, QuizMode.schedule, QuizMode.onExit.
    all: repeat (case_match || case_decide); cbn; try done.
    all: by apply prefix_app_r.
  - intros k ρ seen Hk w'. subst w'. cbn. rewrite Hk.
    unfold QuizMode.handleNext, QuizMode.update, QuizMode.onExit, QuizMode.dropTimer. cbn.
    case_decide as Hlt.
    + destruct (QuizMode.mounted w) eqn:Hm; cbn.
      * split_and!; try done; try lia.
        intros _ _. split_and!; [done| |done].
        by rewrite setupRound_currentRound.
      * split_and!; try done; lia.
    + split_and!; try done; try lia.
Qed.

(** C9 as stated fails twice over.  In round 1 the right answer is
    confirmed twice; the first timer starts round 2, the second one still
    fires and moves on to round 3.  And in round 10 the learner leaves
    right after the right answer; the timer still fires and calls [onExit]
    a second time. *)
Lemma stale_timer_takes_effect :
  (let w := QuizMode.run pool4 (QuizMode.mount pool4 typingDraws)
              (confirmTwice ++ [QuizMode.Fire 0 typingDraws]) in
   let w' := QuizMode.step pool4 w (QuizMode.Fire 0 typingDraws) in
   QuizMode.timers w = [1] ∧ QuizMode.currentRound (QuizMode.ui w) = 2 ∧
   QuizMode.currentRound (QuizMode.ui w') = 3) ∧
  (let v := QuizMode.run pool4 (QuizMode.mount pool4 typingDraws)
              (rounds 9 ++ [QuizMode.Input watashi; QuizMode.SubmitTyping;
                            QuizMode.ClickExit]) in
   let v' := QuizMode.step pool4 v (QuizMode.Fire 0 typingDraws) in
   QuizMode.mounted v = false ∧ QuizMode.exits v = 1 ∧ QuizMode.timers v = [10] ∧
   QuizMode.exits v' = 2).
Proof. by vm_compute. Qed.

(** The second timer of a twice confirmed answer, fired in round 2. *)
Lemma timers_never_cancelled_witness :
  let w := QuizMode.run pool4 (QuizMode.mount pool4 typingDraws)
             (confirmTwice ++ [QuizMode.Fire 0 typingDraws]) in
  let w' := QuizMode.step pool4 w (QuizMode.Fire 0 typingDraws) in
  (QuizMode.timers w !! 0 = Some 1 ∧ 1 < TOTAL_ROUNDS ∧ QuizMode.mounted w = true) ∧
  QuizMode.currentRound (QuizMode.ui w') = QuizMode.currentRound (QuizMode.ui w) + 1.
Proof.
  intros w w'.
  assert (QuizMode.timers w !! 0 = Some 1) as Hk by reflexivity.
  assert (1 < TOTAL_ROUNDS) as Hlt by (unfold TOTAL_ROUNDS; lia).
  assert (QuizMode.mounted w = true) as Hm by reflexivity.
  split; [done|].
  destruct (timers_never_cancelled pool4 w) as [_ Hfire].
  destruct (Hfire 0 typingDraws 1 Hk) as (_ & Hlive & _).
  exact (proj1 (proj2 (Hlive Hlt Hm))).
Defined.

(** ** The round counter *)

(** On the review screen the advance always reads the live round number:
    the number stays between 1 and the total, the arrow adds exactly one
    to it below the total, and at the total the advance calls [onExit]. *)
Lemma review_round_counter {Sh : Shuffler} (words : list Word)
    (ρ : ReviewMode.Draws) (es : list ReviewMode.Event) (ρ' : ReviewMode.Draws) :
  let w := ReviewMode.run words (ReviewMode.mount words ρ) es in
  let w' := ReviewMode.handleNextRound words ρ' w in
  1 ≤ ReviewMode.currentRound (ReviewMode.ui w) ≤ TOTAL_ROUNDS ∧
  (ReviewMode.mounted w = true →
   ReviewMode.currentRound (ReviewMode.ui w) < TOTAL_ROUNDS →
   ReviewMode.currentRound (ReviewMode.ui w') = ReviewMode.currentRound (ReviewMode.ui w) + 1 ∧
   ReviewMode.exits w' = ReviewMode.exits w) ∧
  (ReviewMode.currentRound (ReviewMode.ui w) = TOTAL_ROUNDS →
   ReviewMode.currentRound (ReviewMode.ui w') = ReviewMode.currentRound (ReviewMode.ui w) ∧
   ReviewMode.exits w' = S (ReviewMode.exits w)).
Proof.
  intros w w'.
  assert (reviewInv words (ReviewMode.ui w)) as (_ & _ & _ & Hround & _).
  { apply review_run_inv, review_mount_inv. }
  split; [done|]. subst w'. unfold ReviewMode.handleNextRound, ReviewMode.update.
  split.
  - intros Hm Hlt. rewrite Hm. case_decide; [|lia]. cbn. split; [|done].
    destruct words as [|w0 ws] eqn:Hw; [done|]. rewrite <-Hw.
    by destruct (review_setupRound_spec words ρ'
                   (ReviewMode.setCurrentRound
                      (ReviewMode.currentRound (ReviewMode.ui w) + 1) (ReviewMode.ui w))
                   w0 ws Hw) as (-> & _).
  - intros Heq. case_decide; [lia|]. done.
Qed.

(** In the quiz a right answer confirmed twice leaves two timers that
    captured the same round number; below the total both of them advance,
    so the round number moves on by two. *)
Lemma double_confirm_skips_round {Sh : Shuffler} (words : list Word)
    (w : QuizMode.World) (cw : Word) (ρ1 ρ2 : QuizMode.Draws) :
  QuizMode.mounted w = true →
  QuizMode.insufficient words = false →
  QuizMode.currentType (QuizMode.ui w) = QuizMode.TYPING →
  QuizMode.currentWord (QuizMode.ui w) = Some cw →
  trim (QuizMode.typingInput (QuizMode.ui w)) = hiragana cw →
  QuizMode.timers w = [] →
  QuizMode.currentRound (QuizMode.ui w) < TOTAL_ROUNDS →
  let w' := QuizMode.run words w
              [QuizMode.SubmitTyping; QuizMode.SubmitTyping;
               QuizMode.Fire 0 ρ1; QuizMode.Fire 0 ρ2] in
  QuizMode.currentRound (QuizMode.ui w') = QuizMode.currentRound (QuizMode.ui w) + 2 ∧
  QuizMode.exits w' = QuizMode.exits w.
Proof.
  intros Hm Hins Hty Hcw Heq Ht Hlt w'. subst w'.
  destruct w as [s m ts n]. destruct s. simpl in *. subst.
  unfold QuizMode.run, foldl, QuizMode.step, QuizMode.click, QuizMode.checkTyping,
    QuizMode.update, QuizMode.schedule.
  rewrite Hins. simpl. rewrite Heq. simpl.
  case_decide; [|done]. simpl. rewrite Heq. case_decide; [|done]. simpl.
  unfold QuizMode.handleNext, QuizMode.update. simpl.
  case_decide; [|lia]. simpl. case_decide; [|lia]. simpl.
  rewrite !setupRound_currentRound. simpl. split; [lia|done].
Qed.

(** C1 fails on the quiz.  The session below plays eight rounds, then in
    round 9 confirms the right answer twice within the delay of the first
    timer.  Both timers captured round 9, both find it below the total, and
    both increment the counter: it passes 10 and stands at 11, the quiz
    still running and [onExit] not called. *)
Theorem round_counter_overrun :
  let w9 := QuizMode.run pool4 (QuizMode.mount pool4 typingDraws) (rounds 8) in
  let w := QuizMode.run pool4 w9
             (confirmTwice ++ [QuizMode.Fire 0 typingDraws; QuizMode.Fire 0 typingDraws]) in
  TOTAL_ROUNDS = 10 ∧
  QuizMode.currentRound (QuizMode.ui w9) = 9 ∧
  QuizMode.currentRound (QuizMode.ui w) = 11 ∧
  QuizMode.mounted w = true ∧ QuizMode.exits w = 0.
Proof. by vm_compute. Qed.


(** * Further properties *)

(** ** Moving sentence fragments *)

Section Fragments.
Import QuizMode.
Context {Sh : Shuffler} (words : list Word).

(** With distinct identifiers, filtering a fragment out by its identifier
    removes that fragment and nothing else. *)
Lemma filter_bid_Permutation (l : list Block) (b : Block) :
  NoDup (bid <$> l) → b ∈ l → l ≡ₚ b :: filter (λ x, bid x ≠ bid b) l.
Proof.
  induction l as [|x l IH]; intros Hnd Hb; [by apply elem_of_nil in Hb|].
  cbn [fmap list_fmap] in Hnd. apply NoDup_cons in Hnd as [Hx Hnd].
  apply elem_of_cons in Hb as [->|Hb].
  - rewrite filter_cons_False by (intros ?; done).
    rewrite filter_all; [done|]. intros y Hy Heq. apply Hx. rewrite <-Heq.
    by apply list_elem_of_fmap_2.
  - assert (bid x ≠ bid b) as Hne.
    { intros Heq. apply Hx. rewrite Heq. by apply list_elem_of_fmap_2. }
    rewrite filter_cons_True by done.
    rewrite (IH Hnd Hb) at 1. apply Permutation_swap.
Qed.

Lemma filter_bid_absent (l : list Block) (b : Block) :
  bid b ∉ bid <$> l → filter (λ x, bid x ≠ bid b) l = l.
Proof.
  intros Hb. apply filter_all. intros y Hy Heq. apply Hb. rewrite <-Heq.
  by apply list_elem_of_fmap_2.
Qed.

Lemma filter_bid_delete (l : list Block) (k : nat) (b : Block) :
  NoDup (bid <$> l) → l !! k = Some b →
  filter (λ x, bid x ≠ bid b) l = delete k l.
Proof.
  revert k. induction l as [|x l IH]; intros k Hnd Hk; [done|].
  cbn [fmap list_fmap] in Hnd. apply NoDup_cons in Hnd as [Hx Hnd].
  destruct k as [|k]; simplify_eq/=.
  - rewrite filter_cons_False by (intros ?; done). by apply filter_bid_absent.
  - assert (bid x ≠ bid b) as Hne.
    { intros Heq. apply Hx. rewrite Heq.
      by eapply list_elem_of_fmap_2, list_elem_of_lookup_2. }
    rewrite filter_cons_True by done. f_equal. by apply IH.
Qed.

Lemma move_step_conserves w m :
  NoDup (bid <$> fragments (ui w)) →
  let w' := step words w (moveEvent m) in
  fragments (ui w') ≡ₚ fragments (ui w) ∧
  sentenceFeedback (ui w') = sentenceFeedback (ui w) ∧
  timers w' = timers w ∧ exits w' = exits w.
Proof.
  unfold fragments. intros Hnd.
  rewrite fmap_app in Hnd. apply NoDup_app in Hnd as (Hp & Hdisj & Ha).
  destruct m as [k|k]; cbn; unfold click, toggleSentenceBlock, update.
  - repeat case_match; cbn; try done. split; [|done].
    match goal with H : sentenceBlocks _ !! _ = Some ?b |- _ =>
      rename H into Hk; pose proof (list_elem_of_lookup_2 _ _ _ Hk) as Hb end.
    rewrite (filter_bid_Permutation (sentenceBlocks (ui w)) _ Hp Hb) at 2.
    rewrite app_assoc, (Permutation_app_comm _ [_]). done.
  - repeat case_match; cbn; try done. split; [|done].
    match goal with H : userSentence _ !! _ = Some ?b |- _ =>
      rename H into Hk; pose proof (list_elem_of_lookup_2 _ _ _ Hk) as Hb end.
    rewrite (filter_bid_Permutation (userSentence (ui w)) _ Ha Hb) at 2.
    by rewrite <-app_assoc.
Qed.

End Fragments.

Section FragmentMoves.
Import QuizMode.
Context {Sh : Shuffler} (words : list Word).

(** X1.  In a Sentence round whose fragments carry distinct identifiers
    (as those of every fresh round do), any sequence of moves between pool
    and answer keeps every fragment in exactly one of the two: pool and
    answer together always hold the same fragments.  Moves neither change
    the feedback nor schedule or trigger anything. *)
Theorem sentence_moves_conserve (w : World) (ms : list Move) :
  NoDup (bid <$> fragments (ui w)) →
  let w' := run words w (moveEvent <$> ms) in
  fragments (ui w') ≡ₚ fragments (ui w) ∧
  NoDup (bid <$> fragments (ui w')) ∧
  sentenceFeedback (ui w') = sentenceFeedback (ui w) ∧
  timers w' = timers w ∧ exits w' = exits w.
Proof.
  revert w. induction ms as [|m ms IH]; intros w Hnd; [done|].
  cbn [fmap list_fmap run foldl].
  destruct (move_step_conserves words w m Hnd) as (Hp & Hf & Ht & He).
  assert (NoDup (bid <$> fragments (ui (step words w (moveEvent m))))) as Hnd'.
  { by rewrite Hp. }
  destruct (IH _ Hnd') as (Hp' & Hn' & Hf' & Ht' & He').
  split_and!; [by etrans|done|by etrans..].
Qed.

(** The fragments of a fresh Sentence round carry distinct identifiers. *)
Lemma fresh_round_fragments ρ cw s :
  userSentence s = [] →
  fragments (setupSentence ρ cw s)
    ≡ₚ blocksOf (chunksOf ρ (stripFurigana (exampleSentence cw))) ∧
  NoDup (bid <$> fragments (setupSentence ρ cw s)).
Proof.
  intros Hu. unfold fragments, setupSentence. cbn. rewrite Hu, app_nil_r.
  split; [apply shuffle_perm|].
  rewrite shuffle_perm, blocksOf_bid. apply NoDup_seq.
Qed.

(** X2.  A move is undone by the opposite move: taking the k-th fragment
    of the pool and then returning the fragment that now ends the answer
    restores the answer, and the pool holds its fragments as before with
    the moved one now at its end. *)
Theorem sentence_move_undone (w : World) (cw : Word) (k : nat) (b : Block) :
  mounted w = true →
  insufficient words = false →
  currentType (ui w) = SENTENCE →
  currentWord (ui w) = Some cw →
  NoDup (bid <$> fragments (ui w)) →
  sentenceBlocks (ui w) !! k = Some b →
  let w' := run words w [ClickPoolBlock k;
                         ClickAnswerBlock (length (userSentence (ui w)))] in
  userSentence (ui w') = userSentence (ui w) ∧
  sentenceBlocks (ui w') = delete k (sentenceBlocks (ui w)) ++ [b].
Proof.
  intros Hm Hins Hty Hcw Hnd Hk w'. subst w'.
  unfold fragments in Hnd. rewrite fmap_app in Hnd.
  apply NoDup_app in Hnd as (Hp & Hdisj & Ha).
  assert (bid b ∉ bid <$> userSentence (ui w)) as Hfresh.
  { apply Hdisj. by eapply list_elem_of_fmap_2, list_elem_of_lookup_2. }
  destruct w as [s m ts n]. destruct s. simpl in *. subst.
  unfold step, click, toggleSentenceBlock, update. rewrite Hins. simpl.
  rewrite Hk. simpl. rewrite lookup_app_r, Nat.sub_diag by done. simpl.
  rewrite filter_app, filter_bid_absent by done.
  rewrite (filter_cons_False _ b) by (intros ?; done).
  rewrite filter_nil, app_nil_r.
  by rewrite (filter_bid_delete _ k b).
Qed.

End FragmentMoves.

(** A fresh Sentence round on the sample sentence: take the second, then
    the first fragment, and return the first one taken. *)
Lemma sentence_moves_conserve_witness :
  let w := QuizMode.mount pool4 (quizDraws 2 0 2 1 1) in
  let w' := QuizMode.run pool4 w
              (moveEvent <$> [TakeFromPool 1; TakeFromPool 0; ReturnToPool 0]) in
  NoDup (QuizMode.bid <$> fragments (QuizMode.ui w)) ∧
  fragments (QuizMode.ui w') ≡ₚ fragments (QuizMode.ui w).
Proof.
  intros w w'.
  assert (NoDup (QuizMode.bid <$> fragments (QuizMode.ui w))) as Hnd
    by (apply (bool_decide_unpack _); vm_compute; exact I).
  split; [exact Hnd|].
  exact (proj1 (sentence_moves_conserve pool4 w
                  [TakeFromPool 1; TakeFromPool 0; ReturnToPool 0] Hnd)).
Defined.

Lemma sentence_move_undone_witness :
  let w := QuizMode.mount pool4 (quizDraws 2 0 2 1 1) in
  let w' := QuizMode.run pool4 w
              [QuizMode.ClickPoolBlock 0; QuizMode.ClickAnswerBlock 0] in
  QuizMode.sentenceBlocks (QuizMode.ui w) !! 0
    = Some {| QuizMode.bid := 1; QuizMode.btext := [12391; 12377]%N |} ∧
  QuizMode.userSentence (QuizMode.ui w') = [] ∧
  QuizMode.bid <$> QuizMode.sentenceBlocks (QuizMode.ui w') = [0; 1].
Proof.
  intros w w'.
  assert (NoDup (QuizMode.bid <$> fragments (QuizMode.ui w))) as Hnd
    by (apply (bool_decide_unpack _); vm_compute; exact I).
  assert (QuizMode.sentenceBlocks (QuizMode.ui w) !! 0
          = Some {| QuizMode.bid := 1; QuizMode.btext := [12391; 12377]%N |}) as Hk
    by reflexivity.
  destruct (sentence_move_undone pool4 w w1 0 _ eq_refl eq_refl eq_refl eq_refl Hnd Hk)
    as [Hu Hp].
  split; [exact Hk|]. split; [exact Hu|].
  etrans; [exact (f_equal (fmap QuizMode.bid) Hp)|reflexivity].
Defined.

(** ** The matching round of the quiz *)

Section QuizMatchingRound.
Import QuizMode.
Context {Sh : Shuffler} (words : list Word).

Lemma imap_rid (f : nat → Word → option str) (l : list Word) :
  rid <$> imap (λ k w, {| rid := id w; rtext := f k w; rtype := HIRAGANA |}) l = ids l.
Proof.
  rewrite fmap_imap. rewrite (imap_ext _ (const id)) by done.
  by rewrite imap_const.
Qed.

(** X3.  A matching round of the quiz on at least three words with
    distinct identifiers has three left cards, three different words of
    the vocabulary, and three right cards carrying the same identifiers in
    some order, each showing the reading or the first meaning of its word;
    nothing is matched or selected at the start. *)
Theorem quiz_matching_setup (ρ : Draws) (s : State) :
  3 ≤ length words →
  NoDup (ids words) →
  floorRandom (dType ρ) 4 = 0 →
  let s' := setupRound words ρ s in
  currentType s' = MATCHING ∧
  length (matchingLeft s') = 3 ∧
  matchingLeft s' ⊆+ words ∧
  NoDup (ids (matchingLeft s')) ∧
  rid <$> matchingRight s' ≡ₚ ids (matchingLeft s') ∧
  Forall (λ item, ∃ x, x ∈ matchingLeft s' ∧ rid item = id x ∧
                       (rtext item = Some (hiragana x) ∨
                        rtext item = meanings x !! 0))
    (matchingRight s') ∧
  matchingPairs s' = [] ∧ selectedLeft s' = None.
Proof.
  intros Hlen Hnd Hty.
  assert (words ≠ []) as Hne by (intros E; rewrite E in Hlen; simpl in Hlen; lia).
  assert (∃ x, x ∈ words) as [x _].
  { destruct words as [|x ?]; [done|]. exists x. left. }
  assert (drawnType ρ = MATCHING) as Hdrawn.
  { unfold drawnType. change (length types) with 4. by rewrite Hty. }
  cbv zeta. rewrite (setupRound_nonempty words ρ s x Hne). cbv zeta.
  rewrite Hdrawn. unfold setupMatching. cbn.
  set (pool := take 3 (shuffle (dSeed1 ρ) words)).
  assert (pool ⊆+ words) as Hsub.
  { subst pool. etrans; [apply submseteq_take|]. by rewrite shuffle_perm. }
  split_and!; try done.
  - subst pool. apply length_take_le. by rewrite shuffle_perm.
  - eapply submseteq_NoDup; [|exact Hnd]. by apply ids_submseteq.
  - by rewrite shuffle_perm, imap_rid.
  - apply Forall_forall. intros item Hitem. rewrite shuffle_perm in Hitem.
    apply elem_of_lookup_imap in Hitem as (k & y & -> & Hk). cbn.
    exists y. split; [by eapply list_elem_of_lookup_2|]. split; [done|].
    destruct (dCoin ρ k); auto.
Qed.

(** One selection either leaves timers and matched cards alone or matches
    one more card, and then schedules the advance exactly if that card was
    the last one. *)
Lemma selection_step_timer w x ts r :
  matchingInv (ui w) →
  currentRound (ui w) = r →
  (timers w = ts ∧ ¬ allMatched (ui w)) ∨
  (timers w = ts ++ [r] ∧ allMatched (ui w)) →
  let w' := step words w (selectionEvent x) in
  currentRound (ui w') = r ∧
  ((timers w' = ts ∧ ¬ allMatched (ui w')) ∨
   (timers w' = ts ++ [r] ∧ allMatched (ui w'))).
Proof.
  intros Hinv Hr HJ w'.
  pose proof (matchingInv_bound _ (step_matchingInv words w (selectionEvent x) Hinv))
    as Hbound.
  pose proof (matchingInv_bound _ Hinv) as Hbound0.
  fold w' in Hbound. subst w'. revert Hbound. unfold allMatched in *.
  destruct x; cbn; unfold click, handleMatchLeft, handleMatchRight, update, schedule;
    repeat (case_match || case_decide); cbn; try done.
  all: rewrite ?length_app; cbn; intros Hbound.
  all: destruct HJ as [[Ht Hlt]|[Ht Heq]]; try lia.
  all: split; [done|]; subst.
  all: try match goal with
           | H : context [length (?a ++ [?i])] |- _ =>
               let E := fresh in pose proof (length_app a [i]) as E; cbn in E
           end.
  all: first [left; split; [done|lia] | right; split; [done|lia]].
Qed.

Lemma selections_timer w xs ts r :
  matchingInv (ui w) →
  currentRound (ui w) = r →
  (timers w = ts ∧ ¬ allMatched (ui w)) ∨
  (timers w = ts ++ [r] ∧ allMatched (ui w)) →
  let w' := run words w (selectionEvent <$> xs) in
  currentRound (ui w') = r ∧
  ((timers w' = ts ∧ ¬ allMatched (ui w')) ∨
   (timers w' = ts ++ [r] ∧ allMatched (ui w'))).
Proof.
  revert w. induction xs as [|x xs IH]; intros w Hinv Hr HJ; [done|].
  cbn [fmap list_fmap run foldl].
  destruct (selection_step_timer w x ts r Hinv Hr HJ) as [Hr' HJ'].
  apply IH; [by apply step_matchingInv|done..].
Qed.

(** X4.  From any state of a quiz in which the matching round is not yet
    complete, selections on the cards schedule the automatic advance at
    most once, and exactly when the last pair gets matched: afterwards
    the pending timers are those from before, plus one for the current
    round if and only if every card is matched. *)
Theorem quiz_matching_one_timer (ρ : Draws) (es : list Event) (xs : list Selection) :
  let w := run words (mount words ρ) es in
  let w' := run words w (selectionEvent <$> xs) in
  ¬ allMatched (ui w) →
  currentRound (ui w') = currentRound (ui w) ∧
  ((timers w' = timers w ∧ ¬ allMatched (ui w')) ∨
   (timers w' = timers w ++ [currentRound (ui w)] ∧ allMatched (ui w'))).
Proof.
  intros w w' Hopen. subst w'.
  apply selections_timer; [|done|by left].
  apply run_matchingInv, mount_matchingInv.
Qed.

End QuizMatchingRound.

(** A matching round played to the end on four words. *)
Lemma quiz_matching_setup_witness :
  let s := QuizMode.setupRound pool4 (quizDraws 0 0 0 1 2) QuizMode.initial in
  (3 ≤ length pool4 ∧ NoDup (ids pool4)) ∧
  length (QuizMode.matchingLeft s) = 3 ∧
  QuizMode.rid <$> QuizMode.matchingRight s ≡ₚ ids (QuizMode.matchingLeft s).
Proof.
  intros s.
  assert (3 ≤ length pool4) as Hlen by (simpl; lia).
  assert (NoDup (ids pool4)) as Hnd by (apply (bool_decide_unpack _); vm_compute; exact I).
  split; [done|].
  destruct (quiz_matching_setup pool4 (quizDraws 0 0 0 1 2) QuizMode.initial
              Hlen Hnd eq_refl) as (_ & H3 & _ & _ & Hperm & _).
  split; [exact H3|exact Hperm].
Defined.

Lemma quiz_matching_one_timer_witness :
  let xs := [PickLeft 0; PickRight 1; PickLeft 1; PickRight 2; PickLeft 2;
             PickRight 0; PickRight 0; PickLeft 0; PickRight 1] in
  let w := QuizMode.mount pool4 (quizDraws 0 0 0 1 2) in
  let w' := QuizMode.run pool4 w (selectionEvent <$> xs) in
  ¬ allMatched (QuizMode.ui w) ∧
  QuizMode.timers w' = [1] ∧ allMatched (QuizMode.ui w').
Proof.
  intros xs w w'.
  assert (¬ allMatched (QuizMode.ui w)) as Hopen by (by vm_compute).
  split; [exact Hopen|].
  destruct (quiz_matching_one_timer pool4 (quizDraws 0 0 0 1 2) [] xs Hopen)
    as [_ [[_ Hno]|[Ht Hall]]].
  - destruct Hno. by vm_compute.
  - split; [exact Ht|exact Hall].
Defined.

(** ** What the quiz shows *)

Section QuizShows.
Import QuizMode.
Context {Sh : Shuffler} (words : list Word).

Lemma setupRound_fromPool ρ s : fromPool words s → fromPool words (setupRound words ρ s).
Proof.
  intros (Hcw & Hl & Ho & Hr).
  destruct (decide (words = [])) as [He|Hne].
  { by rewrite setupRound_empty. }
  assert (∃ x, x ∈ words) as [x _].
  { destruct words as [|x ?]; [done|]. exists x. left. }
  rewrite (setupRound_nonempty words ρ s x Hne). cbv zeta.
  pose proof (drawnWord_elem_of words ρ x Hne) as Hw.
  assert (take 3 (shuffle (dSeed1 ρ) words) ⊆ words) as Hpool.
  { intros y Hy%subseteq_take. by rewrite shuffle_perm in Hy. }
  destruct (drawnType ρ); unfold setupMatching, setupSentence, setupListening;
    (split_and!; cbn; [by intros ? [= <-]|try done..]).
  - intros i Hi. rewrite shuffle_perm, imap_rid in Hi.
    apply list_elem_of_fmap in Hi as (y & -> & Hy).
    by apply list_elem_of_fmap_2, Hpool.
  - intros y Hy. rewrite shuffle_perm in Hy.
    apply elem_of_cons in Hy as [->|Hy%subseteq_take]; [done|].
    rewrite shuffle_perm in Hy. by apply list_elem_of_filter in Hy as [_ ?].
Qed.

Lemma click_fromPool e w : fromPool words (ui w) → fromPool words (ui (click e w)).
Proof.
  intros Hinv. destruct e; unfold click, handleMatchLeft, handleMatchRight,
    checkTyping, toggleSentenceBlock, checkSentence, checkListening, update,
    schedule, onExit; repeat (case_match || case_decide); done.
Qed.

Lemma step_fromPool w e : fromPool words (ui w) → fromPool words (ui (step words w e)).
Proof.
  intros Hinv. unfold step.
  destruct e; try (destruct (mounted w && negb _); [by apply click_fromPool|done]).
  - by destruct (mounted w).
  - destruct (timers w !! k) as [seen|]; [|done].
    unfold handleNext, update, onExit, dropTimer. cbn.
    case_decide; [|done]. destruct (mounted w); [|done]. cbn.
    by apply setupRound_fromPool.
Qed.

Lemma setupRound_currentWord ρ s :
  words ≠ [] → is_Some (currentWord (setupRound words ρ s)).
Proof.
  intros Hne.
  assert (∃ x, x ∈ words) as [x _].
  { destruct words as [|x ?]; [done|]. exists x. left. }
  rewrite (setupRound_nonempty words ρ s x Hne). cbv zeta.
  destruct (drawnType ρ); by eexists.
Qed.

Lemma click_currentWord e w : currentWord (ui (click e w)) = currentWord (ui w).
Proof.
  destruct e; unfold click, handleMatchLeft, handleMatchRight,
    checkTyping, toggleSentenceBlock, checkSentence, checkListening, update,
    schedule, onExit; repeat (case_match || case_decide); done.
Qed.

Lemma step_currentWord w e :
  words ≠ [] → is_Some (currentWord (ui w)) → is_Some (currentWord (ui (step words w e))).
Proof.
  intros Hne Hcw. unfold step.
  destruct e; try (destruct (mounted w && negb _); [by rewrite click_currentWord|done]).
  - by destruct (mounted w).
  - destruct (timers w !! k) as [seen|]; [|done].
    unfold handleNext, update, onExit, dropTimer. cbn.
    case_decide; [|done]. destruct (mounted w); [|done]. cbn.
    by apply setupRound_currentWord.
Qed.

(** X5.  In every state a quiz can reach, whatever it shows comes from
    the vocabulary it was given: the current word, the left cards of the
    matching round, the identifiers on its right cards and the options of
    the listening round; and on a non-empty vocabulary there always is a
    current word. *)
Theorem quiz_shows_pool_words (ρ : Draws) (es : list Event) :
  let s := ui (run words (mount words ρ) es) in
  fromPool words s ∧ (words ≠ [] → is_Some (currentWord s)).
Proof.
  cbv zeta. split.
  - assert (fromPool words (ui (mount words ρ))) as H0.
    { apply setupRound_fromPool. split_and!; cbn; try done.
      all: by intros ? ?%elem_of_nil. }
    revert H0. generalize (mount words ρ).
    induction es as [|e es IH]; intros w Hw; [done|].
    cbn. by apply IH, step_fromPool.
  - intros Hne.
    assert (is_Some (currentWord (ui (mount words ρ)))) as H0
      by by apply setupRound_currentWord.
    revert H0. generalize (mount words ρ).
    induction es as [|e es IH]; intros w Hw; [done|].
    cbn. by apply IH, step_currentWord.
Qed.

End QuizShows.

(** Two typing rounds on four words. *)
Lemma quiz_shows_pool_words_witness :
  pool4 ≠ [] ∧
  is_Some (QuizMode.currentWord
             (QuizMode.ui (QuizMode.run pool4 (QuizMode.mount pool4 typingDraws)
                             (rounds 2)))).
Proof.
  assert (pool4 ≠ []) as Hne by discriminate.
  split; [exact Hne|].
  exact (proj2 (quiz_shows_pool_words pool4 typingDraws (rounds 2)) Hne).
Defined.

(** ** The empty identifier *)

Section EmptyIdentifier.
Context {Sh : Shuffler} (words : list Word).

Lemma falsy_Some_false (i : str) : falsy (Some i) = false → i ≠ [].
Proof. by destruct i. Qed.

Lemma quiz_step_empty w e :
  [] ∉ QuizMode.matchingPairs (QuizMode.ui w) →
  [] ∉ QuizMode.matchingPairs (QuizMode.ui (QuizMode.step words w e)).
Proof.
  intros Hinv. destruct e; cbn;
    unfold QuizMode.click, QuizMode.handleMatchLeft, QuizMode.handleMatchRight,
      QuizMode.checkTyping, QuizMode.toggleSentenceBlock, QuizMode.checkSentence,
      QuizMode.checkListening, QuizMode.handleNext, QuizMode.update,
      QuizMode.schedule, QuizMode.onExit, QuizMode.dropTimer;
    repeat (case_match || case_decide); cbn; try done.
  all: try (unfold QuizMode.setupRound; destruct words; [done|];
            destruct (nth _ QuizMode.types QuizMode.MATCHING); cbn; try done;
            by intros ?%elem_of_nil).
  all: intros [?|Hi%list_elem_of_singleton]%elem_of_app; [done|].
  all: match goal with
       | H : falsy ?x || _ = false, E : ?x = Some _ |- _ =>
           rewrite E in H; apply orb_false_iff in H as [H _];
           apply falsy_Some_false in H; congruence
       end.
Qed.

Lemma review_step_empty w e :
  [] ∉ ReviewMode.matchedPairs (ReviewMode.ui w) →
  [] ∉ ReviewMode.matchedPairs (ReviewMode.ui (ReviewMode.step words w e)).
Proof.
  intros Hinv. destruct e; cbn;
    unfold ReviewMode.click, ReviewMode.handleLeftClick, ReviewMode.handleRightClick,
      ReviewMode.handleNextRound, ReviewMode.update, ReviewMode.onExit;
    repeat (case_match || case_decide); cbn; try done.
  all: try (unfold ReviewMode.setupRound; destruct words; [done|]; cbn;
            by intros ?%elem_of_nil).
  all: intros [?|Hi%list_elem_of_singleton]%elem_of_app; [done|].
  all: match goal with
       | H : falsy ?x || _ = false, E : ?x = Some _ |- _ =>
           rewrite E in H; apply orb_false_iff in H as [H _];
           apply falsy_Some_false in H; congruence
       end.
Qed.

(** A completed review round has matched exactly the identifiers of its
    left cards. *)
Lemma complete_Permutation s :
  reviewInv words s → ReviewMode.isRoundComplete s = true →
  ReviewMode.matchedPairs s ≡ₚ ids (ReviewMode.shuffledLeft s).
Proof.
  intros (Hnd & Hsub & _) [_ Heq%bool_decide_eq_true]%andb_true_iff.
  apply submseteq_length_Permutation.
  - by apply NoDup_submseteq.
  - unfold ids. rewrite length_fmap. lia.
Qed.

(** X6.  A card whose identifier is the empty string can never be matched,
    because an empty selection counts as no selection: in no state that a
    quiz or a review session reaches is the empty identifier among the
    matched ones, and a review round that holds such a card is never
    complete. *)
Theorem empty_identifier_never_matched :
  (∀ (ρ : QuizMode.Draws) es,
     [] ∉ QuizMode.matchingPairs
            (QuizMode.ui (QuizMode.run words (QuizMode.mount words ρ) es))) ∧
  (∀ (ρ : ReviewMode.Draws) es,
     let s := ReviewMode.ui (ReviewMode.run words (ReviewMode.mount words ρ) es) in
     ([] ∉ ReviewMode.matchedPairs s) ∧
     ([] ∈ ids (ReviewMode.shuffledLeft s) → ReviewMode.isRoundComplete s = false)).
Proof.
  split.
  - intros ρ es.
    assert ([] ∉ QuizMode.matchingPairs (QuizMode.ui (QuizMode.mount words ρ))) as H0.
    { cbn. unfold QuizMode.setupRound. destruct words; [by intros ?%elem_of_nil|].
      destruct (nth _ QuizMode.types QuizMode.MATCHING); cbn; by intros ?%elem_of_nil. }
    revert H0. generalize (QuizMode.mount words ρ).
    induction es as [|e es IH]; intros w Hw; [done|].
    cbn. by apply IH, quiz_step_empty.
  - intros ρ es s.
    assert ([] ∉ ReviewMode.matchedPairs s) as Hno.
    { subst s.
      assert ([] ∉ ReviewMode.matchedPairs (ReviewMode.ui (ReviewMode.mount words ρ))) as H0.
      { cbn. unfold ReviewMode.setupRound. destruct words; cbn; by intros ?%elem_of_nil. }
      revert H0. generalize (ReviewMode.mount words ρ).
      induction es as [|e es IH]; intros w Hw; [done|].
      cbn. by apply IH, review_step_empty. }
    split; [done|]. intros Hin.
    destruct (ReviewMode.isRoundComplete s) eqn:Hc; [|done].
    destruct Hno. rewrite (complete_Permutation s); [done| |done].
    apply review_run_inv, review_mount_inv.
Qed.

End EmptyIdentifier.

(** A review round with a nameless card: its four other cards can be
    matched, the round stays open. *)
Lemma empty_identifier_never_matched_witness :
  let s := ReviewMode.ui
             (ReviewMode.run pool5 (ReviewMode.mount pool5 (reviewDraws 0 0 0))
                (reviewEvent <$> [PickLeft 0; PickRight 0; PickLeft 1; PickRight 1])) in
  [] ∈ ids (ReviewMode.shuffledLeft s) ∧ ReviewMode.isRoundComplete s = false.
Proof.
  intros s.
  assert ([] ∈ ids (ReviewMode.shuffledLeft s)) as Hin
    by (apply (bool_decide_unpack _); vm_compute; exact I).
  split; [exact Hin|].
  exact (proj2 (proj2 (empty_identifier_never_matched pool5) (reviewDraws 0 0 0)
                  (reviewEvent <$> [PickLeft 0; PickRight 0; PickLeft 1; PickRight 1]))
           Hin).
Defined.

(** ** Leaving a review session *)

Section ReviewExit.
Import ReviewMode.
Context {Sh : Shuffler} (words : list Word).

Lemma review_step_exits w e :
  (mounted w = true ∧ exits w = 0) ∨ (mounted w = false ∧ exits w = 1) →
  let w' := step words w e in
  (mounted w' = true ∧ exits w' = 0) ∨ (mounted w' = false ∧ exits w' = 1).
Proof.
  intros [[Hm He]|[Hm He]]; destruct e; cbn;
    unfold click, handleLeftClick, handleRightClick, handleNextRound, update, onExit;
    rewrite ?Hm; repeat (case_match || case_decide); cbn; auto.
  all: try (left; by split). all: right; split; [done|lia].
Qed.

Lemma review_setupRound_round ρ s :
  currentRound (setupRound words ρ s) = currentRound s.
Proof. unfold setupRound. by destruct words. Qed.

Lemma review_step_round w e :
  currentRound (ui (step words w e)) = currentRound (ui w) ∨
  ((∃ ρ', e = ClickNext ρ') ∧ isRoundComplete (ui w) = true ∧
   currentRound (ui (step words w e)) = currentRound (ui w) + 1).
Proof.
  destruct e; cbn;
    unfold click, handleLeftClick, handleRightClick, handleNextRound, update, onExit;
    repeat (case_match || case_decide); cbn; auto.
  all: try lia.
  all: right; split; [by eexists|].
  all: match goal with
       | H : isRoundComplete _ && _ = true |- _ =>
           apply andb_true_iff in H as [H _]
       end.
  all: split; [done|]; by rewrite review_setupRound_round.
Qed.


(** On fewer than five words a round holds a word twice, and its second
    card can never be matched. *)
Lemma small_pool_incomplete s :
  length words < 5 → reviewInv words s → isRoundComplete s = false.
Proof.
  intros Hlt (Hnd & Hsub & _ & _ & Hl).
  apply andb_false_iff.
  destruct Hl as [Hl|[Hl5 Hlw]].
  { left. apply bool_decide_eq_false. rewrite Hl. simpl. lia. }
  right. apply bool_decide_eq_false.
  assert (length (matchedPairs s) ≤ length (ids words)) as Hle.
  { apply submseteq_length, NoDup_submseteq; [done|].
    intros i (x & -> & Hx)%Hsub%list_elem_of_fmap.
    by apply list_elem_of_fmap_2, Hlw. }
  unfold ids in Hle. rewrite length_fmap in Hle. lia.
Qed.


End ReviewExit.



(** ** Finishing a review round *)

Section ReviewSolution.
Import ReviewMode.
Context {Sh : Shuffler} (words : list Word).

Lemma review_setupRound_columns ρ s :
  5 ≤ length words → NoDup (ids words) → columnsInv (setupRound words ρ s).
Proof.
  intros H5 Hnd.
  destruct words as [|w0 ws] eqn:Hw; [simpl in H5; lia|]. rewrite <-Hw in *.
  assert (words ≠ []) as Hne by by rewrite Hw.
  destruct (review_setupRound_spec words ρ s w0 ws Hw) as (_ & _ & _ & Hl & Hr).
  destruct (roundWordsOf_spec words ρ w0 Hne) as (Hfive & _ & Hdistinct).
  split_and!.
  - by rewrite Hl.
  - unfold ids. rewrite Hl. eapply submseteq_NoDup; [|exact Hnd].
    by apply ids_submseteq, Hdistinct.
  - by rewrite Hr, Hl.
Qed.

Lemma review_step_columns w e :
  5 ≤ length words → NoDup (ids words) →
  columnsInv (ui w) → columnsInv (ui (step words w e)).
Proof.
  intros H5 Hnd Hinv. destruct e; cbn;
    unfold click, handleLeftClick, handleRightClick, handleNextRound, update, onExit;
    repeat (case_match || case_decide); cbn; try done.
  all: by apply review_setupRound_columns.
Qed.

Lemma review_run_columns w es :
  5 ≤ length words → NoDup (ids words) →
  columnsInv (ui w) → columnsInv (ui (run words w es)).
Proof.
  intros H5 Hnd. revert w. induction es as [|e es IH]; intros w Hinv; [done|].
  cbn. by apply IH, review_step_columns.
Qed.

Lemma rightIndex_lookup i (right : list ReviewItem) :
  i ∈ id <$> (word <$> right) →
  ∃ item, right !! rightIndex i right = Some item ∧ id (word item) = i.
Proof.
  intros (x & -> & (item & -> & Hitem)%list_elem_of_fmap)%list_elem_of_fmap.
  unfold rightIndex.
  destruct (list_find_elem_of (λ it, id (word it) = id (word item)) right item)
    as [[j y] Hfind]; [done..|].
  rewrite Hfind. cbn. apply list_find_Some in Hfind as (? & ? & _). by exists y.
Qed.

Lemma pairUp_step s0 k w :
  words ≠ [] → columnsInv s0 → [] ∉ ids (shuffledLeft s0) →
  upTo s0 k w →
  upTo s0 (S k) (run words w (reviewEvent <$> pairUp s0 k)).
Proof.
  intros Hne (_ & HndL & Hperm) Hnil (Hm & Hr & HL & HR & Hnd & Hset).
  assert (insufficient words = false) as Hins.
  { apply bool_decide_eq_false. destruct words; [done|]. simpl. lia. }
  unfold pairUp.
  destruct (shuffledLeft s0 !! k) as [x|] eqn:Hk; last first.
  { cbn. split_and!; try done. intros i. rewrite Hset.
    apply lookup_ge_None in Hk.
    rewrite !take_ge; [done|unfold ids; rewrite length_fmap; lia..]. }
  assert (ids (shuffledLeft s0) !! k = Some (id x)) as Hik.
  { unfold ids. by rewrite list_lookup_fmap, Hk. }
  assert (∀ i, i ∈ take (S k) (ids (shuffledLeft s0)) ↔
               i ∈ take k (ids (shuffledLeft s0)) ∨ i = id x) as HS.
  { intros i. rewrite (take_S_r _ _ _ Hik), elem_of_app, list_elem_of_singleton. done. }
  destruct (includes (id x) (matchedPairs s0)) eqn:Hinc.
  { cbn. split_and!; try done. intros i. rewrite Hset, HS.
    apply includes_true in Hinc. split; [tauto|]. intros [?|[?| ->]]; auto. }
  apply includes_false in Hinc.
  assert (id x ∉ matchedPairs (ui w)) as Hnot.
  { rewrite Hset. intros [?|Hin]; [done|].
    apply elem_of_take in Hin as (j & Hj & Hlt).
    pose proof (NoDup_lookup _ _ _ _ HndL Hj Hik). lia. }
  assert (id x ≠ []) as Hx.
  { intros Hx. apply Hnil. rewrite <-Hx. by eapply list_elem_of_lookup_2. }
  destruct (rightIndex_lookup (id x) (shuffledRight s0)) as (item & Hitem & Hid).
  { rewrite Hperm. by eapply list_elem_of_lookup_2. }
  apply includes_false in Hnot.
  destruct w as [s m n]. destruct s as [r sel mp L R]. simpl in *. subst m L R r.
  cbn. unfold step, click. cbn. rewrite Hins. cbn. rewrite Hk. cbn.
  rewrite Hnot. unfold handleLeftClick. cbn. rewrite Hnot.
  unfold update. cbn. rewrite Hitem, Hid, Hnot.
  unfold handleRightClick. cbn. rewrite Hnot.
  destruct (id x) as [|c i'] eqn:Hidx; [done|]. cbn.
  rewrite decide_True by done. cbn.
  apply includes_false in Hnot.
  split_and!; try done.
  - apply NoDup_app. split_and!; [done| |apply NoDup_singleton].
    intros i Hi ->%list_elem_of_singleton. done.
  - intros i. cbn. rewrite elem_of_app, list_elem_of_singleton, Hset, HS. tauto.
Qed.

Lemma pairUp_run s0 n w :
  words ≠ [] → columnsInv s0 → [] ∉ ids (shuffledLeft s0) →
  upTo s0 0 w →
  upTo s0 n (run words w (reviewEvent <$> (seq 0 n ≫= pairUp s0))).
Proof.
  intros Hne Hcol Hnil H0. induction n as [|n IH]; [done|].
  rewrite seq_S, bind_app, fmap_app. unfold run. rewrite foldl_app.
  cbn [seq mbind list_bind]. rewrite app_nil_r.
  by apply pairUp_step.
Qed.

(** X8.  A review round on a vocabulary of at least five words with
    distinct, non-empty identifiers can always be finished: from every
    state of a session that is still on screen, selecting each unmatched
    left card and then the right card of its word, from top to bottom,
    completes the round, without changing the cards or the round number. *)
Theorem review_round_completable (ρ : Draws) (es : list Event) :
  5 ≤ length words → NoDup (ids words) → [] ∉ ids words →
  let w := run words (mount words ρ) es in
  mounted w = true →
  let w' := run words w (reviewEvent <$> solution (ui w)) in
  isRoundComplete (ui w') = true ∧ mounted w' = true ∧
  matchedPairs (ui w') ≡ₚ ids (shuffledLeft (ui w)) ∧
  shuffledLeft (ui w') = shuffledLeft (ui w) ∧
  currentRound (ui w') = currentRound (ui w).
Proof.
  intros H5 Hnd Hnil w Hm w'.
  assert (words ≠ []) as Hne by (destruct words; [simpl in H5; lia|done]).
  assert (reviewInv words (ui w)) as (HndM & HsubM & _ & _ & Hl).
  { apply review_run_inv, review_mount_inv. }
  assert (columnsInv (ui w)) as Hcol.
  { apply review_run_columns; [done..|]. by apply review_setupRound_columns. }
  destruct Hcol as (Hl5 & HndL & Hperm).
  assert (shuffledLeft (ui w) ⊆ words) as Hsub.
  { destruct Hl as [Hl|[_ ?]]; [|done]. rewrite Hl in Hl5. done. }
  assert ([] ∉ ids (shuffledLeft (ui w))) as HnilL.
  { intros (x & Hx & Hin)%list_elem_of_fmap. apply Hnil.
    apply list_elem_of_fmap. exists x. split; [done|]. by apply Hsub. }
  destruct (pairUp_run (ui w) (length (shuffledLeft (ui w))) w)
    as (Hm' & Hr' & HL' & HR' & Hnd' & Hset'); [done..| |].
  { split_and!; try done. intros i. rewrite take_0, elem_of_nil. tauto. }
  fold (solution (ui w)) in Hm', Hr', HL', HR', Hnd', Hset'. fold w' in Hm', Hr', HL', HR', Hnd', Hset'.
  assert (matchedPairs (ui w') ≡ₚ ids (shuffledLeft (ui w))) as Hp.
  { apply NoDup_Permutation; [done..|]. intros i. rewrite Hset'.
    rewrite take_ge by (unfold ids; rewrite length_fmap; lia).
    split; [intros [?|?]; auto|auto]. }
  split_and!; try done.
  apply andb_true_iff. split; apply bool_decide_eq_true; rewrite HL'; [lia|].
  rewrite Hp. unfold ids. by rewrite length_fmap.
Qed.

End ReviewSolution.

(** Five of six words matched from top to bottom. *)
Lemma review_round_completable_witness :
  let w := ReviewMode.run pool6 (ReviewMode.mount pool6 (reviewDraws 1 1 2))
             [ReviewMode.ClickLeft 1] in
  ReviewMode.isRoundComplete
    (ReviewMode.ui (ReviewMode.run pool6 w (reviewEvent <$> solution (ReviewMode.ui w))))
  = true.
Proof.
  intros w.
  refine (proj1 (review_round_completable pool6 (reviewDraws 1 1 2)
                   [ReviewMode.ClickLeft 1] _ _ _ _)).
  - simpl. lia.
  - apply (bool_decide_unpack _). vm_compute. exact I.
  - apply (bool_decide_unpack _). vm_compute. exact I.
  - reflexivity.
Defined.

(** ** The application *)

Section Application.
Import App.
Context {Sh : Shuffler}.

Lemma app_step_deckInv s e : deckInv s → deckInv (step s e).
Proof.
  unfold deckInv. intros Hinv.
  destruct e; cbn;
    unfold dbSettled, handleGoHome, startLearning, startLearningDone,
      startReviewFlashcards, cardNext, cardPrev, handleFinishBatch,
      showsCard, isLast, isFirst in *;
    repeat (case_match || case_decide); cbn; auto.
  all: repeat match goal with
              | H : _ && _ = true |- _ => apply andb_true_iff in H as [? ?]
              | H : negb _ = true |- _ => apply negb_true_iff in H
              | H : bool_decide _ = false |- _ => apply bool_decide_eq_false in H
              | H : bool_decide _ = true |- _ => apply bool_decide_eq_true in H
              end.
  all: lia.
Qed.

Lemma app_run_deckInv s es : deckInv s → deckInv (run s es).
Proof.
  revert s. induction es as [|e es IH]; intros s Hinv; [done|].
  cbn. by apply IH, app_step_deckInv.
Qed.

(** X10.  Whenever the application shows a flashcard, the card exists:
    the index it reads the deck at is inside the deck, whatever was
    clicked before and whenever the database and the word service
    answered. *)
Theorem card_shown_exists (es : list Event) :
  let s := run initial es in
  showsCard s = true →
  is_Some (currentSessionWords s !! currentIndex s).
Proof.
  intros s [_ Hlen%bool_decide_eq_true]%andb_true_iff.
  apply lookup_lt_is_Some.
  destruct (app_run_deckInv initial es) as [H0|Hlt]; [by left| |done].
  fold s in H0. lia.
Qed.

Lemma kanji_withLearnedAt (now : nat → str) (l : list Word) :
  kanji <$> imap (λ k w, withLearnedAt (now k) w) l = kanji <$> l.
Proof.
  rewrite fmap_imap. rewrite (imap_ext _ (const kanji)) by done.
  by rewrite imap_const.
Qed.

Lemma known_kanji learned nw : known learned nw ↔ kanji nw ∈ kanji <$> learned.
Proof.
  unfold known. rewrite Exists_exists, list_elem_of_fmap.
  split; intros (lw & ? & ?); exists lw; done.
Qed.

(** X11.  Finishing a learning deck adds to the learned words, behind the
    ones already there, exactly the cards whose kanji was not learned yet,
    stamped with the time: afterwards every card of the deck is known, the
    learned kanji are those from before and those of the deck, and if
    neither the learned words nor the deck repeated a kanji, the learned
    words do not either.  A deck of known words adds nothing. *)
Theorem finish_batch_learns (now : nat → str) (s : State) :
  mode s = LEARN →
  let s' := handleFinishBatch now s in
  learnedWords s `prefix_of` learnedWords s' ∧
  (∀ k, k ∈ kanji <$> learnedWords s' ↔
        k ∈ kanji <$> learnedWords s ∨ k ∈ kanji <$> currentSessionWords s) ∧
  (∀ w, w ∈ currentSessionWords s → known (learnedWords s') w) ∧
  (∀ w, w ∈ drop (length (learnedWords s)) (learnedWords s') →
        is_Some (learnedAt w) ∧ ¬ known (learnedWords s) w) ∧
  (NoDup (kanji <$> learnedWords s) → NoDup (kanji <$> currentSessionWords s) →
   NoDup (kanji <$> learnedWords s')) ∧
  ((∀ w, w ∈ currentSessionWords s → known (learnedWords s) w) →
   learnedWords s' = learnedWords s) ∧
  mode s' = HOME ∧ currentSessionWords s' = [] ∧ currentIndex s' = 0.
Proof.
  intros Hmode s'. subst s'. unfold handleFinishBatch.
  rewrite decide_True by done. cbn.
  set (fresh := filter (λ nw, ¬ known (learnedWords s) nw) (currentSessionWords s)).
  assert (∀ k, k ∈ kanji <$> fresh ↔
               k ∈ kanji <$> currentSessionWords s ∧ k ∉ kanji <$> learnedWords s) as Hfresh.
  { intros k. split.
    - intros (w & -> & [Hn Hw]%list_elem_of_filter)%list_elem_of_fmap.
      split; [by apply list_elem_of_fmap_2|]. by rewrite <-known_kanji.
    - intros [(w & -> & Hw)%list_elem_of_fmap Hn]. apply list_elem_of_fmap_2.
      apply list_elem_of_filter. split; [by rewrite known_kanji|done]. }
  split_and!; try done.
  - by apply prefix_app_r.
  - intros k. rewrite fmap_app, elem_of_app, kanji_withLearnedAt, Hfresh.
    destruct (decide (k ∈ kanji <$> learnedWords s)); tauto.
  - intros w Hw. apply known_kanji.
    rewrite fmap_app, elem_of_app, kanji_withLearnedAt, Hfresh.
    destruct (decide (kanji w ∈ kanji <$> learnedWords s)); [by left|right].
    split; [|done]. by apply list_elem_of_fmap_2.
  - intros w. rewrite drop_app_length.
    intros (k & Hk)%list_elem_of_lookup_1.
    rewrite list_lookup_imap in Hk.
    destruct (fresh !! k) as [x|] eqn:Hx; [|done]. injection Hk as <-.
    split; [by eexists|].
    apply list_elem_of_lookup_2, list_elem_of_filter in Hx as [Hx _].
    by rewrite known_kanji in *.
  - intros HndL HndS. rewrite fmap_app, kanji_withLearnedAt.
    apply NoDup_app. split_and!; [done| |].
    + intros k Hk [_ Hn]%Hfresh. done.
    + eapply sublist_NoDup; [exact HndS|]. apply fmap_sublist, sublist_filter.
  - intros Hall. replace fresh with (@nil Word); [by rewrite app_nil_r|].
    symmetry. apply filter_none. intros w Hw Hn. by apply Hn, Hall.
Qed.

End Application.

Section ApplicationSessions.
Import App.
Context {Sh : Shuffler}.

Lemma app_step_kept s e :
  dbPending s = false →
  (mode s = QUIZ → 4 ≤ length (learnedWords s)) →
  learnedWords s `prefix_of` learnedWords (step s e) ∧
  dbPending (step s e) = false ∧
  (mode (step s e) = QUIZ → 4 ≤ length (learnedWords (step s e))).
Proof.
  intros Hdb Hq.
  destruct e; cbn;
    unfold dbSettled, handleGoHome, startLearning, startLearningDone,
      startReviewFlashcards, cardNext, cardPrev, handleFinishBatch,
      showsCard, isLast, isFirst in *;
    rewrite ?Hdb;
    repeat (case_match || case_decide); cbn; split_and!; try done.
  all: try by apply prefix_app_r.
  all: repeat match goal with
              | H : _ && _ = true |- _ => apply andb_true_iff in H as [? ?]
              | H : negb _ = true |- _ => apply negb_true_iff in H
              | H : bool_decide _ = false |- _ => apply bool_decide_eq_false in H
              | H : bool_decide _ = true |- _ => apply bool_decide_eq_true in H
              end.
  all: try congruence.
  all: intros _; lia.
Qed.

(** X12.  Once the database has answered, the learned words are never
    lost or reordered: whatever happens afterwards, the list only gets
    longer at its end.  And the quiz is only ever on screen with at least
    four learned words, so that it never shows its notice of too small a
    vocabulary. *)
Theorem learned_words_kept (s : State) (es : list Event) :
  dbPending s = false →
  (mode s = QUIZ → 4 ≤ length (learnedWords s)) →
  let s' := run s es in
  learnedWords s `prefix_of` learnedWords s' ∧
  (mode s' = QUIZ → QuizMode.insufficient (learnedWords s') = false).
Proof.
  intros Hdb Hq s'. subst s'.
  cut (learnedWords s `prefix_of` learnedWords (run s es) ∧
       dbPending (run s es) = false ∧
       (mode (run s es) = QUIZ → 4 ≤ length (learnedWords (run s es)))).
  { intros (? & _ & H4). split; [done|]. intros Hm%H4.
    apply bool_decide_eq_false. lia. }
  revert s Hdb Hq. induction es as [|e es IH]; intros s Hdb Hq; [done|].
  cbn. destruct (app_step_kept s e Hdb Hq) as (Hp & Hdb' & Hq').
  destruct (IH (step s e) Hdb' Hq') as (Hp' & ? & ?).
  split_and!; [by etrans|done..].
Qed.

(** X13.  Walking through a deck: starting at its first card, each press
    of the next button before the last card only moves the index on by
    one, and as many presses as the deck has cards end in exactly what
    [handleFinishBatch] does to the deck. *)
Theorem deck_walk (now : nat → str) (s : State) :
  showsCard s = true → currentIndex s = 0 →
  let n := length (currentSessionWords s) in
  (∀ k, k < n → run s (replicate k (CardNext now)) = setCurrentIndex k s) ∧
  run s (replicate n (CardNext now)) = handleFinishBatch now s.
Proof.
  intros Hshow H0 n.
  assert (0 < n) as Hn.
  { by apply andb_true_iff in Hshow as [_ ?%bool_decide_eq_true]. }
  assert (∀ k, k < n → run s (replicate k (CardNext now)) = setCurrentIndex k s) as Hk.
  { induction k as [|k IH]; intros Hlt.
    - destruct s. simpl in *. by subst.
    - rewrite replicate_S_end. unfold run in *. rewrite foldl_app, IH by lia.
      cbn. unfold showsCard, cardNext, isLast in *. cbn. rewrite Hshow.
      rewrite bool_decide_eq_false_2 by (fold n; lia).
      unfold setCurrentIndex. cbn. by rewrite Nat.add_1_r. }
  split; [done|].
  destruct n as [|m] eqn:Hm; [lia|].
  rewrite replicate_S_end. unfold run in *. rewrite foldl_app, Hk by lia.
  cbn. unfold showsCard, cardNext, isLast in *. cbn. rewrite Hshow.
  rewrite bool_decide_eq_true_2 by (fold n; lia).
  unfold handleFinishBatch. cbn. by destruct (decide (mode s = LEARN)).
Qed.

(** X14.  Next and previous undo each other: in every state in which the
    application shows a card, pressing next and then previous on a card
    that is not the last, or previous and then next on a card that is not
    the first, leads back to the same state. *)
Theorem card_next_prev (now : nat → str) (es : list Event) :
  let s := run initial es in
  showsCard s = true →
  (isLast s = false → step (step s (CardNext now)) CardPrev = s) ∧
  (isFirst s = false → step (step s CardPrev) (CardNext now) = s).
Proof.
  intros s Hshow.
  assert (deckInv s) as Hinv by (apply app_run_deckInv; by left).
  revert Hshow Hinv. generalize s. clear s. intros s Hshow Hinv.
  unfold deckInv in Hinv.
  pose proof Hshow as [_ Hn%bool_decide_eq_true]%andb_true_iff.
  split.
  - intros Hl. cbn. rewrite Hshow. unfold cardNext. rewrite Hl.
    unfold showsCard, isFirst, cardPrev in *. cbn. rewrite Hshow.
    rewrite bool_decide_eq_false_2 by lia. cbn.
    rewrite bool_decide_eq_true_2 by lia.
    destruct s. unfold setCurrentIndex. cbn. f_equal. lia.
  - intros Hf. apply bool_decide_eq_false in Hf.
    cbn. rewrite Hshow. unfold isFirst, cardPrev.
    rewrite bool_decide_eq_false_2 by done. cbn.
    rewrite bool_decide_eq_true_2 by lia.
    unfold showsCard, cardNext, isLast in *. cbn. rewrite Hshow.
    rewrite bool_decide_eq_false_2 by lia.
    destruct s. unfold setCurrentIndex. cbn in *. f_equal. lia.
Qed.

End ApplicationSessions.

(** The deck of the sample session is on screen at its first card. *)
Lemma card_shown_exists_witness :
  App.showsCard (App.run App.initial learningSession) = true ∧
  is_Some (App.currentSessionWords (App.run App.initial learningSession)
             !! App.currentIndex (App.run App.initial learningSession)).
Proof.
  split; [reflexivity|].
  apply (card_shown_exists learningSession). reflexivity.
Defined.

(** Finishing the sample deck: of its three cards two are new. *)
Lemma finish_batch_learns_witness :
  let s := App.run App.initial learningSession in
  App.mode s = App.LEARN ∧
  App.learnedWords s `prefix_of` App.learnedWords (App.handleFinishBatch stamp s).
Proof.
  intros s. split; [reflexivity|].
  refine (proj1 (finish_batch_learns stamp s _)). reflexivity.
Defined.

(** Four words in the database, then the quiz. *)
Lemma learned_words_kept_witness :
  let s := App.run App.initial [App.DbSettled (Some pool4)] in
  App.dbPending s = false ∧
  App.learnedWords s `prefix_of` App.learnedWords (App.run s [App.ClickQuiz]).
Proof.
  intros s. split; [reflexivity|].
  refine (proj1 (learned_words_kept s [App.ClickQuiz] _ _)); [reflexivity|].
  intros Hm. discriminate Hm.
Defined.

(** Three presses on the sample deck of three cards. *)
Lemma deck_walk_witness :
  let s := App.run App.initial learningSession in
  (App.showsCard s = true ∧ App.currentIndex s = 0) ∧
  App.run s (replicate 3 (App.CardNext stamp)) = App.handleFinishBatch stamp s.
Proof.
  intros s. split; [split; reflexivity|].
  refine (proj2 (deck_walk stamp s _ _)); reflexivity.
Defined.

(** Next and previous on the first card of the sample deck. *)
Lemma card_next_prev_witness :
  let s := App.run App.initial learningSession in
  (App.showsCard s = true ∧ App.isLast s = false) ∧
  App.step (App.step s (App.CardNext stamp)) App.CardPrev = s.
Proof.
  intros s. split; [split; reflexivity|].
  refine (proj1 (card_next_prev stamp learningSession _) _); reflexivity.
Defined.

(** ** The image and vocabulary services *)

Section ImageService.
Import Services.
Context (respond : nat → Outcome) (compress : str → str).

(** The loop, entered with [c] requests sent and [c] delays waited. *)
Lemma retryLoop_spec todo c waited :
  length waited = c →
  let r := retryLoop respond compress todo c c waited in
  requests r ≤ c + todo ∧
  waited `prefix_of` waits r ∧
  length (waits r) ≤ requests r ≤ S (length (waits r)) ∧
  (∀ k, c ≤ k < length (waits r) →
        ∃ h, respond k = RateLimited h ∧ waits r !! k = Some (waitTime h k)) ∧
  (∀ url, result r = Some url →
          ∃ b, b ≠ [] ∧ respond (length (waits r)) = Response (Some b) ∧
               url = compress (dataPrefix ++ b)) ∧
  (requests r = length (waits r) → requests r = c + todo).
Proof.
  revert c waited. induction todo as [|todo IH]; intros c waited Hlen r.
  { subst r. cbn. split_and!; try done; try lia. }
  subst r. cbn -[dataPrefix app]. destruct (respond c) as [bytes|h|] eqn:Hc.
  - destruct (falsy bytes) eqn:Hf; cbn -[dataPrefix app].
    all: split_and!; try done; try lia; try (intros k; lia).
    intros url [= <-]. destruct bytes as [[|x b]|]; try done.
    exists (x :: b). by rewrite Hlen.
  - destruct (IH (S c) (waited ++ [waitTime h c])) as (Hreq & Hpre & Hw & Hk & Hres & Hex).
    { rewrite length_app. simpl. lia. }
    split_and!; try done; try lia.
    + by eapply prefix_app_l.
    + intros k [Hck Hkl]. destruct (decide (k = c)) as [->|Hne].
      * exists h. split; [done|].
        destruct Hpre as [rest ->]. rewrite <-app_assoc.
        rewrite lookup_app_r by lia. by rewrite Hlen, Nat.sub_diag.
      * apply Hk. lia.
  - cbn. split_and!; try done; try lia.
Qed.

(** Tries that are all turned away without a hint. *)
Lemma retryLoop_exhausted todo c waited :
  (∀ k, c ≤ k < c + todo → respond k = RateLimited None) →
  retryLoop respond compress todo c c waited =
  {| result := None; requests := c + todo;
     waits := waited ++ (Backoff <$> ((λ k, (1000 * 2 ^ N.of_nat k)%N) <$> seq c todo)) |}.
Proof.
  revert c waited. induction todo as [|todo IH]; intros c waited Hall.
  { cbn. by rewrite Nat.add_0_r, app_nil_r. }
  cbn. rewrite Hall by lia. rewrite IH by (intros k Hk; apply Hall; lia).
  cbn. rewrite <-app_assoc. cbn. f_equal. lia.
Qed.

Lemma backoffs_total n :
  foldr N.add 0%N (backoffs n) = (1000 * (2 ^ N.of_nat n - 1))%N.
Proof.
  unfold backoffs. induction n as [|n IH]; [done|].
  rewrite seq_S, fmap_app, foldr_app. cbn [fmap list_fmap foldr].
  rewrite Nat2N.inj_succ, N.pow_succ_r', N.add_0_r.
  assert (∀ (l : list N) a, foldr N.add a l = (foldr N.add 0 l + a)%N) as Hshift.
  { induction l as [|x l IHl]; intros a; cbn; [done|]. rewrite IHl. lia. }
  rewrite Hshift, IH.
  assert (2 ^ N.of_nat n ≠ 0)%N by (apply N.pow_nonzero; lia).
  rewrite Nat.add_0_l. lia.
Qed.



End ImageService.



Section VocabularyService.
Import Services.
Context {Sh : Shuffler}.


End VocabularyService.

